(** * AI Subtitle Generator: the transcription pipeline

    A shallow embedding of [services/geminiService.ts], [utils/fileUtils.ts]
    and of the error handling of [App.tsx], with the properties of the
    response-cleaning pipeline stated and proved over it.

    JavaScript strings are sequences of UTF-16 code units: a string is a
    [list N] here.  The two regular expressions of [generateSrtFromAudio] are
    kept as syntax trees and run by a backtracking matcher that follows the
    ECMAScript matching order (leftmost start, greedy and lazy quantifiers,
    one capturing group). *)

From Stdlib Require Import String Ascii List NArith Arith Bool Lia QArith.
From Stdlib Require Import DecimalN DecimalPos.
Import ListNotations.

Local Open Scope N_scope.
Local Open Scope list_scope.

(** ** Strings *)

Module Js.

Definition jsstring := list N.

(** [lit] reads a literal the way the TypeScript source writes it: a
    backslash followed by [n], [r] or [t] stands for the control character. *)
Fixpoint lit (s : string) : jsstring :=
  match s with
  | EmptyString => []
  | String "\" (String "n" t) => 10 :: lit t
  | String "\" (String "r" t) => 13 :: lit t
  | String "\" (String "t" t) => 9 :: lit t
  | String c t => N_of_ascii c :: lit t
  end.

Definition eqb (a b : jsstring) : bool :=
  if list_eq_dec N.eq_dec a b then true else false.

(** WhiteSpace and LineTerminator code units: what [String.prototype.trim]
    strips and what the class [\s] accepts. *)
Definition is_ws (c : N) : bool :=
  ((9 <=? c) && (c <=? 13)) || (c =? 32) || (c =? 160) || (c =? 5760)
  || ((8192 <=? c) && (c <=? 8202)) || (c =? 8232) || (c =? 8233)
  || (c =? 8239) || (c =? 8287) || (c =? 12288) || (c =? 65279).

Definition is_digit (c : N) : bool := (48 <=? c) && (c <=? 57).

Fixpoint trimStart (s : jsstring) : jsstring :=
  match s with
  | c :: t => if is_ws c then trimStart t else s
  | [] => []
  end.

Definition trimEnd (s : jsstring) : jsstring := rev (trimStart (rev s)).

Definition trim (s : jsstring) : jsstring := trimEnd (trimStart s).

(** [s.substring(i)] *)
Definition substring (i : nat) (s : jsstring) : jsstring := skipn i s.

Fixpoint startsWith (p s : jsstring) : bool :=
  match p, s with
  | [], _ => true
  | a :: p', b :: s' => (a =? b) && startsWith p' s'
  | _ :: _, [] => false
  end.

(** [s.includes(p)] *)
Fixpoint includes (p s : jsstring) : bool :=
  startsWith p s || match s with [] => false | _ :: t => includes p t end.

(** [s.toLowerCase()] on the ASCII letters; code units outside ASCII are
    left as they are (every needle searched for below is ASCII). *)
Definition toLowerCase (s : jsstring) : jsstring :=
  map (fun c => if (65 <=? c) && (c <=? 90) then c + 32 else c) s.

(** [s.split(',')] for a one-code-unit separator. *)
Fixpoint split (sep : N) (s : jsstring) : list jsstring :=
  match s with
  | [] => [[]]
  | c :: t =>
      if c =? sep then [] :: split sep t
      else match split sep t with
           | h :: r => (c :: h) :: r
           | [] => [[c]]
           end
  end.

End Js.

Import Js.

(** ** Regular expressions *)

Module Regex.

Inductive regex : Type :=
| Eps
| Chr (c : N)
| Class (p : N -> bool)
| Seq (r1 r2 : regex)
| Opt (r : regex)                  (* r?  *)
| Star (greedy : bool) (r : regex) (* r* and r*? *)
| Group (r : regex).               (* ( r ), capture 1 *)

Definition plus (greedy : bool) (r : regex) : regex := Seq r (Star greedy r).

Fixpoint chars (s : jsstring) : regex :=
  match s with
  | [] => Eps
  | c :: t => Seq (Chr c) (chars t)
  end.

Fixpoint times (n : nat) (r : regex) : regex :=
  match n with
  | O => Eps
  | S n' => Seq r (times n' r)
  end.

(** The capture of group 1, [None] while the group has not taken part. *)
Definition caps := option jsstring.

Definition orelse {A} (x y : option A) : option A :=
  match x with Some _ => x | None => y end.

(** The loop of a quantifier [r*]: [m] matches one iteration, [n] bounds the
    iterations still possible (each one consumes at least one code unit). *)
Fixpoint star_loop {A}
    (m : jsstring -> caps -> (jsstring -> caps -> option A) -> option A)
    (greedy : bool) (k : jsstring -> caps -> option A)
    (n : nat) (s : jsstring) (c : caps) {struct n} : option A :=
  match n with
  | O => k s c
  | S n' =>
      let again :=
        m s c (fun s' c' =>
          if (length s' <? length s)%nat
          then star_loop m greedy k n' s' c' else None) in
      if greedy then orelse again (k s c) else orelse (k s c) again
  end.

(** The backtracking matcher: [bt r s c k] matches [r] at the front of [s]
    and hands what is left to the continuation [k]; alternatives are tried in
    the order of the ECMAScript specification, and an iteration of a
    quantifier that consumes nothing is refused.  Captures are not cleared
    when a quantifier starts an iteration: no pattern of this program has a
    group under a quantifier. *)
Fixpoint bt {A} (r : regex) (s : jsstring) (c : caps)
         (k : jsstring -> caps -> option A) {struct r} : option A :=
  match r with
  | Eps => k s c
  | Chr x =>
      match s with
      | y :: s' => if x =? y then k s' c else None
      | [] => None
      end
  | Class p =>
      match s with
      | y :: s' => if p y then k s' c else None
      | [] => None
      end
  | Seq r1 r2 => bt r1 s c (fun s' c' => bt r2 s' c' k)
  | Opt r1 =>
      orelse
        (bt r1 s c (fun s' c' =>
           if (length s' <? length s)%nat then k s' c' else None))
        (k s c)
  | Star greedy r1 => star_loop (bt r1) greedy k (length s) s c
  | Group r1 =>
      bt r1 s c (fun s' c' =>
        k s' (Some (firstn (length s - length s') s)))
  end.

(** The result of [String.prototype.match] with a non-global pattern. *)
Record match_result : Type := MatchResult {
  index : nat;
  whole : jsstring;   (* m[0] *)
  group1 : caps       (* m[1] *)
}.

Definition match_at (r : regex) (s : jsstring) : option (jsstring * caps) :=
  bt r s None (fun s' c' => Some (s', c')).

Fixpoint exec_from (r : regex) (s : jsstring) (i : nat) : option match_result :=
  match match_at r s with
  | Some (s', c') =>
      Some (MatchResult i (firstn (length s - length s') s) c')
  | None =>
      match s with
      | [] => None
      | _ :: t => exec_from r t (S i)
      end
  end.

(** [s.match(r)] *)
Definition js_match (r : regex) (s : jsstring) : option match_result :=
  exec_from r s 0.

End Regex.

Import Regex.

(** ** services/geminiService.ts *)

Module GeminiService.

Definition any (_ : N) : bool := true.
Definition comma_or_period (c : N) : bool := (c =? 44) || (c =? 46).

(** [/```(?:srt)?\s*\n([\s\S]+?)\n```/] *)
Definition markdown_re : regex :=
  Seq (chars (lit "```"))
 (Seq (Opt (chars (lit "srt")))
 (Seq (Star true (Class is_ws))
 (Seq (Chr 10)
 (Seq (Group (plus false (Class any)))
      (chars (lit "\n```")))))).

(** [\d{2}:\d{2}:\d{2}[,.]\d{3}] *)
Definition timestamp_re : regex :=
  Seq (times 2 (Class is_digit))
 (Seq (Chr 58)
 (Seq (times 2 (Class is_digit))
 (Seq (Chr 58)
 (Seq (times 2 (Class is_digit))
 (Seq (Class comma_or_period)
      (times 3 (Class is_digit))))))).

(** [/\d+\s*\n\d{2}:\d{2}:\d{2}[,.]\d{3} --> \d{2}:\d{2}:\d{2}[,.]\d{3}/m];
    the flag [m] only changes [^] and [$], which the pattern does not use. *)
Definition srtBlock_re : regex :=
  Seq (plus true (Class is_digit))
 (Seq (Star true (Class is_ws))
 (Seq (Chr 10)
 (Seq timestamp_re
 (Seq (chars (lit " --> "))
      timestamp_re)))).

(** A thrown value: an [Error] with its message, or anything else. *)
Inductive js_value : Type :=
| JsError (message : jsstring)
| NonError.

Inductive promise (A : Type) : Type :=
| Resolved (a : A)
| Rejected (e : js_value).
Arguments Resolved {A} a.
Arguments Rejected {A} e.

Inductive language : Type := original | english.

Record inlineData : Type := InlineData {
  data : jsstring;
  mimeType : jsstring
}.

Record request : Type := Request {
  model : jsstring;
  textPart : jsstring;
  audioPart : inlineData
}.

(** What [response.text.trim()] finds: the text, or a throw (the accessor
    throws on a blocked response, and [trim] on a missing text). *)
Inductive text_access : Type :=
| Text (t : jsstring)
| TextThrows (e : js_value).

Record candidate : Type := Candidate { finishReason : option jsstring }.

Record response : Type := Response {
  text : text_access;
  candidates : option (list candidate)
}.

(** What [await ai.models.generateContent(...)] gives. *)
Inductive service_outcome : Type :=
| ServiceThrows (e : js_value)
| ServiceResponds (r : response).

Definition instruction (targetLanguage : language) : jsstring :=
  match targetLanguage with
  | original => lit "You are an expert audio transcriber. Your task is to transcribe the given audio and format the output as a standard SubRip (.srt) file. The transcription must be in the original language spoken in the audio."
  | english => lit "You are an expert audio transcriber and translator. Your primary task is to generate ENGLISH subtitles for the provided audio. The audio's original language may not be English. You must first transcribe the audio and then accurately translate it into English. Format the final translated English text as a standard SubRip (.srt) file."
  end.

Definition prompt (targetLanguage : language) : jsstring :=
  instruction targetLanguage ++
  lit "\n- Ensure timestamps are accurate (HH:MM:SS,ms) and correspond to the original audio's timing.\n- The format must be strictly SRT.\n- Do not include any additional explanatory text, greetings, apologies, or markdown formatting. Only the raw SRT content is allowed.\n\nExample of the required format:\n1\n00:00:01,234 --> 00:00:03,456\nThis is the first subtitle.\n\n2\n00:00:04,567 --> 00:00:06,789\nThis is the second subtitle.\n".

Definition build_request (base64Audio mime : jsstring) (targetLanguage : language)
  : request :=
  Request (lit "gemini-2.5-flash") (prompt targetLanguage)
          (InlineData base64Audio mime).

Definition safety_message : jsstring :=
  lit "The request was blocked due to safety concerns. The audio may contain sensitive content.".

Definition no_valid_srt_message : jsstring :=
  lit "The model did not return a valid SRT format. It might have refused the request or failed to process the audio.".

Definition unknown_error_message : jsstring :=
  lit "An unknown error occurred while communicating with the AI model.".

Definition api_error_prefix : jsstring := lit "Gemini API Error: ".

(** Step 1 of the parsing: the interior of a markdown block, if one exists. *)
Definition unwrap_markdown (srtContent : jsstring) : jsstring :=
  match js_match markdown_re srtContent with
  | Some m =>
      match group1 m with
      | Some ((_ :: _) as g) => trim g
      | _ => srtContent
      end
  | None => srtContent
  end.

(** The text the SRT search runs on. *)
Definition clean (t : jsstring) : jsstring := unwrap_markdown (trim t).

(** [response.candidates?.[0]?.finishReason === 'SAFETY'] *)
Definition finished_for_safety (r : response) : bool :=
  match candidates r with
  | Some (c :: _) =>
      match finishReason c with
      | Some f => Js.eqb f (lit "SAFETY")
      | None => false
      end
  | _ => false
  end.

(** The body of the [try] block, after the call has come back. *)
Definition try_block (o : service_outcome) : promise jsstring :=
  match o with
  | ServiceThrows e => Rejected e
  | ServiceResponds r =>
      match text r with
      | TextThrows e => Rejected e
      | Text t =>
          let srtContent := clean t in
          match js_match srtBlock_re srtContent with
          | Some m => Resolved (substring (index m) srtContent)
          | None =>
              if finished_for_safety r
              then Rejected (JsError safety_message)
              else Rejected (JsError no_valid_srt_message)
          end
      end
  end.

(** The [catch] block. *)
Definition catch_block (error : js_value) : js_value :=
  match error with
  | JsError message => JsError (api_error_prefix ++ message)
  | NonError => JsError unknown_error_message
  end.

Definition generateSrtFromAudio (ai : request -> service_outcome)
    (base64Audio mime : jsstring) (targetLanguage : language)
  : promise jsstring :=
  match try_block (ai (build_request base64Audio mime targetLanguage)) with
  | Resolved s => Resolved s
  | Rejected e => Rejected (catch_block e)
  end.

End GeminiService.

Import GeminiService.

(** ** utils/fileUtils.ts *)

Module FileUtils.

Record File : Type := MkFile {
  bytes : list N;      (* the content, one byte each *)
  type : jsstring;     (* [file.type] *)
  name : jsstring
}.

Definition base64_digit (n : N) : N :=
  if n <? 26 then 65 + n
  else if n <? 52 then 97 + (n - 26)
  else if n <? 62 then 48 + (n - 52)
  else if n =? 62 then 43 else 47.

Fixpoint base64 (bs : list N) : jsstring :=
  match bs with
  | [] => []
  | [a] => [base64_digit (a / 4); base64_digit ((a mod 4) * 16); 61; 61]
  | [a; b] =>
      [base64_digit (a / 4); base64_digit ((a mod 4) * 16 + b / 16);
       base64_digit ((b mod 16) * 4); 61]
  | a :: b :: c :: t =>
      base64_digit (a / 4) :: base64_digit ((a mod 4) * 16 + b / 16)
      :: base64_digit ((b mod 16) * 4 + c / 64) :: base64_digit (c mod 64)
      :: base64 t
  end.

(** What [FileReader.readAsDataURL] leaves in [reader.result] for a file
    read to completion: ["data:audio/mpeg;base64,....."]. *)
Definition dataURL (file : File) : jsstring :=
  lit "data:" ++ type file ++ lit ";base64," ++ base64 (bytes file).

(** The event the reader ends with. *)
Inductive reader_event : Type :=
| OnLoad (result : jsstring)
| OnError.

Definition read_failure_message : jsstring :=
  lit "Failed to read file as base64.".

(** [fileToBase64]: [result.split(',')[1]], resolved when truthy.  On
    [onerror] the promise is rejected with the event, which is no [Error]. *)
Definition fileToBase64 (ev : reader_event) : promise jsstring :=
  match ev with
  | OnLoad result =>
      match nth_error (split 44 result) 1 with
      | Some ((_ :: _) as base64String) => Resolved base64String
      | _ => Rejected (JsError read_failure_message)
      end
  | OnError => Rejected NonError
  end.

(** A JavaScript number as far as [audio.duration] needs it. *)
Inductive number : Type :=
| Num (q : Q)
| Infinity
| NaN.

Definition zero : number := Num 0%Q.

(** [a > b] for a finite [b]. *)
Definition gt (a : number) (b : Q) : bool :=
  match a with
  | Num q => negb (Qle_bool q b)
  | Infinity => true
  | NaN => false
  end.

(** The event the [audio] element ends with; [message] is [e.message] as
    the template literal renders it. *)
Inductive media_event : Type :=
| LoadedMetadata (duration : number)
| MediaError (message : jsstring).

Definition getAudioDuration (ev : media_event) : promise number :=
  match ev with
  | LoadedMetadata duration => Resolved duration
  | MediaError message =>
      Rejected (JsError (lit "Failed to load audio metadata. Error: " ++ message))
  end.

End FileUtils.

Import FileUtils.

(** ** App.tsx and components/Loader.tsx *)

Module App.

Inductive input_mode : Type := upload | record.

Record state : Type := MkState {
  mode : input_mode;
  audioFile : option File;
  audioDuration : number;
  srtContent : jsstring;
  isLoading : bool;
  error : jsstring;
  targetLanguage : language
}.

Definition setAudioFile v (st : state) : state :=
  MkState (mode st) v (audioDuration st) (srtContent st) (isLoading st)
          (error st) (targetLanguage st).
Definition setAudioDuration v (st : state) : state :=
  MkState (mode st) (audioFile st) v (srtContent st) (isLoading st)
          (error st) (targetLanguage st).
Definition setSrtContent v (st : state) : state :=
  MkState (mode st) (audioFile st) (audioDuration st) v (isLoading st)
          (error st) (targetLanguage st).
Definition setIsLoading v (st : state) : state :=
  MkState (mode st) (audioFile st) (audioDuration st) (srtContent st) v
          (error st) (targetLanguage st).
Definition setError v (st : state) : state :=
  MkState (mode st) (audioFile st) (audioDuration st) (srtContent st)
          (isLoading st) v (targetLanguage st).
Definition setTargetLanguage v (st : state) : state :=
  MkState (mode st) (audioFile st) (audioDuration st) (srtContent st)
          (isLoading st) (error st) v.

(** The browser around the component: how reading a file ends, how probing
    its metadata ends, and the remote service. *)
Record environment : Type := MkEnv {
  reader : File -> reader_event;
  media : File -> media_event;
  ai : request -> service_outcome
}.

Definition handleAudioFileChange (env : environment) (file : option File)
    (st : state) : state :=
  match file with
  | Some f =>
      let st := setTargetLanguage original
                  (setError [] (setSrtContent [] (setAudioFile (Some f) st))) in
      match getAudioDuration (media env f) with
      | Resolved duration => setAudioDuration duration st
      | Rejected _ => setAudioDuration zero st
      end
  | None => st
  end.

Definition unexpected_error : jsstring :=
  lit "An unexpected error occurred. Please try again.".
Definition format_not_supported : jsstring :=
  lit "The audio format is not supported. Please use a common format like WAV, MP3, or WEBM.".
Definition file_too_large : jsstring :=
  lit "The audio file is too large or too long. Please use a smaller file.".
Definition could_not_process : jsstring :=
  lit "The AI could not process the audio. It might be silent, contain unsupported content, or be too complex.".
Definition flagged_for_safety : jsstring :=
  lit "Could not generate subtitles as the audio content was flagged for safety reasons.".
Definition service_problem : jsstring :=
  lit "There was a problem with the AI service. Please try again later.".

(** The sentence the [catch] block of [processAudio] chooses. *)
Definition errorMessage (err : js_value) : jsstring :=
  match err with
  | JsError m =>
      let message := toLowerCase m in
      if includes (lit "unsupported content") message
         || includes (lit "invalid argument") message
      then format_not_supported
      else if includes (lit "too long") message
              || includes (lit "payload size") message
      then file_too_large
      else if includes (lit "did not return a valid srt format") message
      then could_not_process
      else if includes (lit "safety concerns") message
      then flagged_for_safety
      else if includes (lit "gemini api error") message
      then service_problem
      else unexpected_error
  | NonError => unexpected_error
  end.

(** [processAudio(language)], run to its end.  [rendered] is the state the
    closure was created in (it reads [audioFile], [srtContent] and
    [targetLanguage] from there); [st] is the state the updates apply to. *)
Definition processAudio (env : environment) (lang : language)
    (rendered st : state) : state :=
  match audioFile rendered with
  | None => setError (lit "An audio file is required to generate subtitles.") st
  | Some f =>
      let st := setSrtContent [] (setError [] (setIsLoading true st)) in
      let attempt :=
        match fileToBase64 (reader env f) with
        | Resolved base64Audio =>
            generateSrtFromAudio (ai env) base64Audio (type f) lang
        | Rejected e => Rejected e
        end in
      let st :=
        match attempt with
        | Resolved result => setTargetLanguage lang (setSrtContent result st)
        | Rejected err =>
            let st :=
              match srtContent rendered with
              | _ :: _ => setTargetLanguage (targetLanguage rendered) st
              | [] => st
              end in
            setError (errorMessage err) st
        end in
      setIsLoading false st
  end.

Definition handleGenerateClick (env : environment) (st : state) : state :=
  processAudio env (targetLanguage st) st st.

(** [Loader]: the hint for longer audio. *)
Definition long_audio_hint (duration : number) : bool := gt duration 60%Q.

End App.

Import App.

(** ** What the patterns accept *)

Module Pattern.

(** Zero or more nonempty pieces, each accepted by [R]. *)
Inductive star_of (R : jsstring -> caps -> caps -> Prop)
  : jsstring -> caps -> caps -> Prop :=
| star_nil c : star_of R [] c c
| star_cons s1 s2 c0 c1 c2 :
    s1 <> [] -> R s1 c0 c1 -> star_of R s2 c1 c2 ->
    star_of R (s1 ++ s2) c0 c2.

(** [lang r s c c']: the pattern [r] accepts exactly the string [s], taking
    the capture from [c] to [c']. *)
Fixpoint lang (r : regex) (s : jsstring) (c c' : caps) : Prop :=
  match r with
  | Eps => s = [] /\ c' = c
  | Chr x => s = [x] /\ c' = c
  | Class p => exists x, s = [x] /\ p x = true /\ c' = c
  | Seq r1 r2 =>
      exists s1 s2 cm, s = s1 ++ s2 /\ lang r1 s1 c cm /\ lang r2 s2 cm c'
  | Opt r1 => (s = [] /\ c' = c) \/ (s <> [] /\ lang r1 s c c')
  | Star _ r1 => star_of (lang r1) s c c'
  | Group r1 => exists cm, lang r1 s c cm /\ c' = Some s
  end.

(** [HH:MM:SS,mmm] or [HH:MM:SS.mmm] *)
Definition timestampb (t : jsstring) : bool :=
  match t with
  | [h1; h2; c1; m1; m2; c2; s1; s2; sep; f1; f2; f3] =>
      is_digit h1 && is_digit h2 && (c1 =? 58) && is_digit m1 && is_digit m2
      && (c2 =? 58) && is_digit s1 && is_digit s2 && comma_or_period sep
      && is_digit f1 && is_digit f2 && is_digit f3
  | _ => false
  end.

(** A timing line [t1 --> t2]. *)
Definition timing (t1 t2 : jsstring) : jsstring := t1 ++ lit " --> " ++ t2.

(** The cue header the code looks for: digits, any white space, a line
    break, a timing line. *)
Definition cue_header (h : jsstring) : Prop :=
  exists d w t1 t2,
    h = d ++ w ++ [10] ++ timing t1 t2 /\
    d <> [] /\ forallb is_digit d = true /\ forallb is_ws w = true /\
    timestampb t1 = true /\ timestampb t2 = true.

(** The cue header as the specification words it: one or more digits, a
    line break, then a timing line. *)
Definition spec_cue_header (h : jsstring) : Prop :=
  exists d t1 t2,
    h = d ++ [10] ++ timing t1 t2 /\
    d <> [] /\ forallb is_digit d = true /\
    timestampb t1 = true /\ timestampb t2 = true.

(** [P] holds of some substring of [s]. *)
Definition has_substring (P : jsstring -> Prop) (s : jsstring) : Prop :=
  exists pre h post, s = pre ++ h ++ post /\ P h.

(** [P] holds of a prefix of [s]. *)
Definition begins_with (P : jsstring -> Prop) (s : jsstring) : Prop :=
  exists h post, s = h ++ post /\ P h.

(** [i] is the first offset of [s] at which a string accepted by [P] begins. *)
Definition first_offset (P : jsstring -> Prop) (s : jsstring) (i : nat) : Prop :=
  (i <= length s)%nat /\ begins_with P (skipn i s) /\
  forall j, (j < i)%nat -> ~ begins_with P (skipn j s).

Definition fence : jsstring := lit "```".
Definition closing : jsstring := lit "\n```".

(** A text wrapped in a fenced block: white space, the opening fence with
    its tag, a line break, the interior, a line break, the closing fence,
    white space. *)
Definition fenced (tag interior before after : jsstring) : jsstring :=
  before ++ fence ++ tag ++ [10] ++ interior ++ closing ++ after.

Definition srt_or_untagged (tag : jsstring) : Prop := tag = lit "srt" \/ tag = [].

(** The interior does not contain a closing fence of its own. *)
Definition no_closing_inside (interior : jsstring) : Prop :=
  forall a b, interior <> a ++ closing ++ b.

(** Some capture makes [r] accept [h]. *)
Definition accepts (r : regex) (h : jsstring) : Prop :=
  exists c', lang r h None c'.

(** The pattern as the specification words it: no white space between the
    digits and the line break. *)
Definition spec_cue_re : regex :=
  Seq (plus true (Class is_digit))
 (Seq (Chr 10)
 (Seq timestamp_re
 (Seq (chars (lit " --> "))
      timestamp_re))).

(** A timestamp whose millisecond separator is [sep]. *)
Definition stamp_with (sep : N) (t : jsstring) : bool :=
  match t with
  | [h1; h2; c1; m1; m2; c2; s1; s2; c3; f1; f2; f3] =>
      is_digit h1 && is_digit h2 && (c1 =? 58) && is_digit m1 && is_digit m2
      && (c2 =? 58) && is_digit s1 && is_digit s2 && (c3 =? sep)
      && is_digit f1 && is_digit f2 && is_digit f3
  | _ => false
  end.

(** A cue header whose two timestamps use the separator [sep]. *)
Definition cue_header_with (sep : N) (h : jsstring) : Prop :=
  exists d w t1 t2,
    h = d ++ w ++ [10] ++ timing t1 t2 /\
    d <> [] /\ forallb is_digit d = true /\ forallb is_ws w = true /\
    stamp_with sep t1 = true /\ stamp_with sep t2 = true.

End Pattern.

Import Pattern.

(** ** Failures and stub services *)

Module Outcome.

(** The failures of [generateSrtFromAudio] as the caller receives them. *)
Definition SafetyBlocked : js_value := JsError (api_error_prefix ++ safety_message).
Definition NoValidSrt : js_value := JsError (api_error_prefix ++ no_valid_srt_message).

(** Where in the [try] block a failure is raised. *)
Inductive failure_site : Type :=
| AtServiceCall    (* [generateContent] throws *)
| AtTextAccess     (* [response.text.trim()] throws *)
| AtSafetyCheck    (* the [finishReason === 'SAFETY'] throw *)
| AtSrtCheck.      (* the last throw *)

Definition failure_site_of (o : service_outcome) : option failure_site :=
  match o with
  | ServiceThrows _ => Some AtServiceCall
  | ServiceResponds r =>
      match text r with
      | TextThrows _ => Some AtTextAccess
      | Text t =>
          match js_match srtBlock_re (clean t) with
          | Some _ => None
          | None =>
              if finished_for_safety r then Some AtSafetyCheck
              else Some AtSrtCheck
          end
      end
  end.

(** A stub service that answers every request with the text [t]. *)
Definition responds (t : jsstring) (cands : option (list candidate))
  : request -> service_outcome :=
  fun _ => ServiceResponds (Response (Text t) cands).

Definition throws (e : js_value) : request -> service_outcome :=
  fun _ => ServiceThrows e.

Definition SAFETY : option (list candidate) :=
  Some [Candidate (Some (lit "SAFETY"))].
Definition STOP : option (list candidate) :=
  Some [Candidate (Some (lit "STOP"))].

End Outcome.

Import Outcome.

(** ** components/AudioRecorder.tsx *)

Module AudioRecorder.

Fixpoint uint_codes (d : Decimal.uint) : jsstring :=
  match d with
  | Decimal.Nil => []
  | Decimal.D0 d => 48 :: uint_codes d
  | Decimal.D1 d => 49 :: uint_codes d
  | Decimal.D2 d => 50 :: uint_codes d
  | Decimal.D3 d => 51 :: uint_codes d
  | Decimal.D4 d => 52 :: uint_codes d
  | Decimal.D5 d => 53 :: uint_codes d
  | Decimal.D6 d => 54 :: uint_codes d
  | Decimal.D7 d => 55 :: uint_codes d
  | Decimal.D8 d => 56 :: uint_codes d
  | Decimal.D9 d => 57 :: uint_codes d
  end.

(** [n.toString()] for a non-negative integer (the decimal digits; exact for
    the integers a JavaScript number holds, below [2^53]). *)
Definition toString (n : N) : jsstring := uint_codes (N.to_uint n).

(** [s.padStart(targetLength, fill)] for a fill of one code unit. *)
Definition padStart (targetLength : nat) (fill : N) (s : jsstring) : jsstring :=
  repeat fill (targetLength - length s) ++ s.

(** [formatTime(seconds)]; [recordingTime] counts whole seconds from 0. *)
Definition formatTime (seconds : N) : jsstring :=
  let minutes := seconds / 60 in
  let secs := seconds mod 60 in
  padStart 2 48 (toString minutes) ++ [58] ++ padStart 2 48 (toString secs).

(** [ondataavailable]: a chunk is kept when [event.data.size > 0]. *)
Definition ondataavailable (audioChunks : list (list N)) (data : list N)
  : list (list N) :=
  match data with
  | [] => audioChunks
  | _ :: _ => audioChunks ++ [data]
  end.

(** [onstop]: the chunks become one file of type [audio/webm]; [now] is
    [Date.now()]. *)
Definition onstop (audioChunks : list (list N)) (now : N) : File :=
  MkFile (concat audioChunks) (lit "audio/webm")
         (lit "recording-" ++ toString now ++ lit ".webm").

(** A recording from [start] to [stop], with the data events in between. *)
Definition recording (events : list (list N)) (now : N) : File :=
  onstop (fold_left ondataavailable events []) now.

(** Reading a displayed time back: the decimal value of a digit string, and
    minutes and seconds around the colon. *)
Definition parseInt (s : jsstring) : N :=
  fold_left (fun acc c => acc * 10 + (c - 48)) s 0.

Definition two_digits (s : jsstring) : bool :=
  match s with
  | [x; y] => is_digit x && is_digit y
  | _ => false
  end.

Definition parseTime (s : jsstring) : option N :=
  match split 58 s with
  | [m; sec] => Some (parseInt m * 60 + parseInt sec)
  | _ => None
  end.

End AudioRecorder.

Import AudioRecorder.

(** ** components/Loader.tsx: the rotating message *)

Module Loader.

Definition initial_message : jsstring := lit "Warming up the AI...".

Definition messages : list jsstring :=
  [lit "Analyzing soundwaves...";
   lit "Identifying speech patterns...";
   lit "Transcribing the dialogue...";
   lit "Synchronizing timestamps...";
   lit "Formatting subtitles...";
   lit "Just a few more seconds..."].

(** [messageIndex] and the message on screen; [None] stands for
    [undefined], what an index outside [messages] would give. *)
Record loader_state : Type := MkLoader {
  messageIndex : nat;
  message : option jsstring
}.

Definition mounted : loader_state := MkLoader 0 (Some initial_message).

(** One run of the interval callback. *)
Definition tick (st : loader_state) : loader_state :=
  let messageIndex := ((messageIndex st + 1) mod length messages)%nat in
  MkLoader messageIndex (nth_error messages messageIndex).

Fixpoint ticks (n : nat) (st : loader_state) : loader_state :=
  match n with
  | O => st
  | S n' => tick (ticks n' st)
  end.

End Loader.

Import Loader.

(** ** App.tsx: the other handlers and the choice of the screen *)

Module Handlers.

Definition language_eqb (a b : language) : bool :=
  match a, b with
  | original, original | english, english => true
  | _, _ => false
  end.

(** [handleLanguageChange(newLanguage)]; [rendered] is the state the
    callback was created in, [st] the state its updates apply to. *)
Definition handleLanguageChange (env : environment) (newLanguage : language)
    (rendered st : state) : state :=
  if language_eqb newLanguage (targetLanguage rendered) then st
  else processAudio env newLanguage rendered (setTargetLanguage newLanguage st).

(** What the component shows. *)
Inductive screen : Type :=
| LoaderScreen (longer_audio_hint : bool)
| SrtDisplayScreen (content : jsstring) (currentLanguage : language)
| InputScreen (m : input_mode) (file : option File) (error : jsstring).

Definition render (st : state) : screen :=
  if isLoading st then LoaderScreen (long_audio_hint (audioDuration st))
  else match srtContent st with
       | _ :: _ => SrtDisplayScreen (srtContent st) (targetLanguage st)
       | [] => InputScreen (mode st) (audioFile st) (error st)
       end.

(** The sentences the [catch] block of [processAudio] can choose. *)
Definition sentences : list jsstring :=
  [format_not_supported; file_too_large; could_not_process;
   flagged_for_safety; service_problem; unexpected_error].

(** Replacing the remote service of an environment. *)
Definition with_ai (ai' : request -> service_outcome) (env : environment)
  : environment :=
  MkEnv (reader env) (media env) ai'.

(** The reader of a browser that reads every file to its end. *)
Definition reads_to_completion (env : environment) : Prop :=
  forall f, reader env f = OnLoad (dataURL f).

End Handlers.

Import Handlers.

(** ** Substrings *)

Module Sub.

(** [u] is a contiguous piece of [s]. *)
Definition substring_of (u s : jsstring) : Prop :=
  exists a b, s = a ++ u ++ b.

End Sub.

Import Sub.

(** ** Sample files, services and states *)

Module Samples.

Definition mp3 : File := MkFile [73; 68; 51] (lit "audio/mpeg") (lit "a.mp3").

Definition one_cue : jsstring := lit "1\n00:00:01,000 --> 00:00:02,000\nHi".

(** A browser that reads every file to its end and probes 75 seconds. *)
Definition browser (ai : request -> service_outcome) : environment :=
  MkEnv (fun f => OnLoad (dataURL f)) (fun _ => LoadedMetadata (Num 75)) ai.

(** A browser whose reader fails on every file. *)
Definition broken_reader : environment :=
  MkEnv (fun _ => OnError) (fun _ => LoadedMetadata (Num 75))
        (responds one_cue STOP).

(** The state with a file chosen and nothing generated yet. *)
Definition chosen (f : File) : state :=
  MkState upload (Some f) zero [] false [] original.

(** The state showing subtitles. *)
Definition showing (f : File) (content : jsstring) (lang : language) : state :=
  MkState upload (Some f) zero content false [] lang.

End Samples.

Import Samples.

(** ** The matcher on small inputs *)

(** [\s*] first takes the line break after the tag and gives it back. *)
Example greedy_white_space_gives_back :
  js_match markdown_re (lit "```srt\n1\n```")
  = Some (MatchResult 0 (lit "```srt\n1\n```") (Some (lit "1"))).
Proof. vm_compute. reflexivity. Qed.

(** The lazy capture ends at the first closing fence. *)
Example lazy_capture_ends_at_first_closing :
  js_match markdown_re (lit "x ```\na\n```\nb\n```")
  = Some (MatchResult 2 (lit "```\na\n```") (Some (lit "a"))).
Proof. vm_compute. reflexivity. Qed.

(** The search returns the leftmost match; the digits are taken greedily. *)
Example leftmost_cue_header :
  js_match srtBlock_re (lit "x9 12\n00:00:01,000 --> 00:00:02,000 y")
  = Some (MatchResult 3 (lit "12\n00:00:01,000 --> 00:00:02,000") None).
Proof. vm_compute. reflexivity. Qed.

Example no_cue_header_in_prose :
  js_match srtBlock_re (lit "I cannot process this audio.") = None.
Proof. vm_compute. reflexivity. Qed.

Example trim_strips_both_ends :
  trim (lit " \t\n1\nHi \n") = lit "1\nHi".
Proof. vm_compute. reflexivity. Qed.

Example split_data_url :
  split 44 (lit "data:audio/mpeg;base64,SUQz")
  = [lit "data:audio/mpeg;base64"; lit "SUQz"].
Proof. vm_compute. reflexivity. Qed.

Example base64_of_three_bytes : base64 [73; 68; 51] = lit "SUQz".
Proof. vm_compute. reflexivity. Qed.

(** ** The matcher against the patterns' languages *)

Section Matcher.

Context {A : Type}.
Implicit Types (k : jsstring -> caps -> option A) (a : A).

Lemma orelse_some (x y : option A) a :
  orelse x y = Some a -> x = Some a \/ y = Some a.
Proof. destruct x; simpl; auto. Qed.

Lemma orelse_left (x y : option A) : x <> None -> orelse x y <> None.
Proof. destruct x; simpl; congruence. Qed.

Lemma orelse_right (x y : option A) : y <> None -> orelse x y <> None.
Proof. destruct x; simpl; congruence. Qed.

Lemma shorter_app (s1 s2 : jsstring) :
  (length s2 <? length (s1 ++ s2))%nat = true <-> s1 <> [].
Proof.
  rewrite Nat.ltb_lt, length_app. destruct s1; simpl; split; intros; try lia; congruence.
Qed.

(** Whatever the loop of [r*] returns comes from a sequence of iterations
    followed by the continuation. *)
Lemma star_loop_sound r g k
  (IH : forall s c k a, bt r s c k = Some a ->
        exists s1 s2 c', s = s1 ++ s2 /\ lang r s1 c c' /\ k s2 c' = Some a) :
  forall n s c a, star_loop (bt r) g k n s c = Some a ->
  exists s1 s2 c', s = s1 ++ s2 /\ star_of (lang r) s1 c c' /\ k s2 c' = Some a.
Proof.
  induction n as [|n IHn]; intros s c a H; simpl in H.
  - exists [], s, c. repeat split; auto. constructor.
  - assert (Hk : k s c = Some a ->
      exists s1 s2 c', s = s1 ++ s2 /\ star_of (lang r) s1 c c' /\ k s2 c' = Some a).
    { intros E. exists [], s, c. repeat split; auto. constructor. }
    assert (Hagain : forall x,
      bt r s c (fun s' c' =>
        if (length s' <? length s)%nat then star_loop (bt r) g k n s' c' else None)
      = Some x ->
      exists s1 s2 c', s = s1 ++ s2 /\ star_of (lang r) s1 c c' /\ k s2 c' = Some x).
    { intros x E. apply IH in E. destruct E as (p & s' & cm & -> & Hp & E).
      destruct (length s' <? length (p ++ s'))%nat eqn:Hlt; [|discriminate].
      apply shorter_app in Hlt.
      apply IHn in E. destruct E as (q & s2 & c' & -> & Hq & E).
      exists (p ++ q), s2, c'. rewrite <- app_assoc. repeat split; auto.
      econstructor; eauto. }
    destruct g; apply orelse_some in H; destruct H; auto.
Qed.

Theorem bt_sound r : forall s c k a,
  bt r s c k = Some a ->
  exists s1 s2 c', s = s1 ++ s2 /\ lang r s1 c c' /\ k s2 c' = Some a.
Proof.
  induction r as [|x|p|r1 IH1 r2 IH2|r1 IH1|g r1 IH1|r1 IH1];
    intros s c k a H; simpl in H.
  - exists [], s, c. simpl. auto.
  - destruct s as [|y s']; [discriminate|].
    destruct (x =? y) eqn:E; [|discriminate]. apply N.eqb_eq in E. subst y.
    exists [x], s', c. simpl. auto.
  - destruct s as [|y s']; [discriminate|].
    destruct (p y) eqn:E; [|discriminate].
    exists [y], s', c. simpl. repeat split; eauto.
  - apply IH1 in H. destruct H as (s1 & s' & cm & -> & H1 & H).
    apply IH2 in H. destruct H as (s2 & s3 & c' & -> & H2 & H).
    exists (s1 ++ s2), s3, c'. rewrite <- app_assoc. repeat split; auto.
    simpl. eauto 10.
  - apply orelse_some in H. destruct H as [H|H].
    + apply IH1 in H. destruct H as (s1 & s2 & c' & -> & H1 & H).
      destruct (length s2 <? length (s1 ++ s2))%nat eqn:Hlt; [|discriminate].
      apply shorter_app in Hlt.
      exists s1, s2, c'. simpl. auto.
    + exists [], s, c. simpl. auto.
  - apply (star_loop_sound r1 g k IH1) in H. exact H.
  - apply IH1 in H. destruct H as (s1 & s2 & cm & -> & H1 & H).
    rewrite length_app, Nat.add_sub, firstn_app, Nat.sub_diag, firstn_all in H.
    simpl in H. rewrite app_nil_r in H.
    exists s1, s2, (Some s1). simpl. eauto.
Qed.

(** If some way of matching lets the continuation succeed, the matcher
    does not fail. *)
Lemma star_loop_complete r g k
  (IH : forall s1 c c', lang r s1 c c' -> forall s2 k,
        k s2 c' <> None -> bt r (s1 ++ s2) c k <> None) :
  forall s1 c c', star_of (lang r) s1 c c' ->
  forall n s2, (length (s1 ++ s2) <= n)%nat -> k s2 c' <> None ->
  star_loop (bt r) g k n (s1 ++ s2) c <> None.
Proof.
  induction 1 as [c|p q c0 c1 c2 Hne Hp Hq IHq]; intros n s2 Hn Hk.
  - destruct n; simpl; auto.
    destruct g; [apply orelse_right | apply orelse_left]; auto.
  - destruct n as [|n].
    { destruct p; [congruence|]. simpl in Hn. lia. }
    simpl.
    assert (Hagain :
      bt r ((p ++ q) ++ s2) c0 (fun s' c' =>
        if (length s' <? length ((p ++ q) ++ s2))%nat
        then star_loop (bt r) g k n s' c' else None) <> None).
    { rewrite <- app_assoc. apply (IH _ _ _ Hp).
      assert (Hlt : (length (q ++ s2) <? length (p ++ q ++ s2))%nat = true)
        by (apply shorter_app; auto).
      rewrite Hlt. apply IHq; auto.
      rewrite <- app_assoc, length_app in Hn.
      destruct p; [congruence|]. simpl in Hn. lia. }
    destruct g; [apply orelse_left; auto|].
    destruct (k ((p ++ q) ++ s2) c0); simpl; [congruence | auto].
Qed.

Theorem bt_complete r : forall s1 c c',
  lang r s1 c c' -> forall s2 k,
  k s2 c' <> None -> bt r (s1 ++ s2) c k <> None.
Proof.
  induction r as [|x|p|r1 IH1 r2 IH2|r1 IH1|g r1 IH1|r1 IH1];
    intros s1 c c' H s2 k Hk; simpl in H.
  - destruct H as [-> ->]. simpl. auto.
  - destruct H as [-> ->]. simpl. rewrite N.eqb_refl. auto.
  - destruct H as (x & -> & Hp & ->). simpl. rewrite Hp. auto.
  - destruct H as (p & q & cm & -> & Hp & Hq). simpl. rewrite <- app_assoc.
    apply (IH1 _ _ _ Hp). apply (IH2 _ _ _ Hq). auto.
  - simpl. destruct H as [[-> ->]|[Hne H]].
    + apply orelse_right. auto.
    + apply orelse_left. apply (IH1 _ _ _ H).
      assert (Hlt : (length s2 <? length (s1 ++ s2))%nat = true)
        by (apply shorter_app; auto).
      rewrite Hlt. auto.
  - simpl. apply (star_loop_complete r1 g k IH1 _ _ _ H); auto.
  - destruct H as (cm & H & ->). simpl. apply (IH1 _ _ _ H).
    rewrite length_app, Nat.add_sub, firstn_app, Nat.sub_diag, firstn_all.
    simpl. rewrite app_nil_r. auto.
Qed.

End Matcher.

(** ** [String.prototype.match] *)

Lemma match_at_some r s rest c' :
  match_at r s = Some (rest, c') -> exists h, s = h ++ rest /\ lang r h None c'.
Proof.
  unfold match_at. intros H. apply bt_sound in H.
  destruct H as (h & s2 & c2 & -> & Hl & E). inversion E; subst. eauto.
Qed.

Lemma match_at_begins r s :
  begins_with (accepts r) s -> match_at r s <> None.
Proof.
  intros (h & post & -> & c' & Hl). unfold match_at.
  apply (bt_complete r _ _ _ Hl). discriminate.
Qed.

Lemma match_at_none r s :
  match_at r s = None -> ~ begins_with (accepts r) s.
Proof. intros H Hb. apply match_at_begins in Hb. auto. Qed.

Lemma exec_from_some r : forall s i m,
  exec_from r s i = Some m ->
  exists j rest,
    index m = (i + j)%nat /\ (j <= length s)%nat /\
    skipn j s = whole m ++ rest /\ lang r (whole m) None (group1 m) /\
    forall j', (j' < j)%nat -> match_at r (skipn j' s) = None.
Proof.
  induction s as [|x s IH]; intros i m H; cbn [exec_from] in H.
  - destruct (match_at r []) as [[s' c']|] eqn:E; [|discriminate].
    inversion H; subst; clear H. simpl.
    apply match_at_some in E. destruct E as (h & Hs & Hl).
    symmetry in Hs. apply app_eq_nil in Hs. destruct Hs as [-> ->].
    exists 0%nat, []. simpl. repeat split; auto. intros; lia.
  - destruct (match_at r (x :: s)) as [[s' c']|] eqn:E.
    + clear IH. remember (x :: s) as xs eqn:Hxs. clear Hxs.
      injection H as <-.
      apply match_at_some in E. destruct E as (h & -> & Hl).
      exists 0%nat, s'. cbn [index whole group1].
      rewrite length_app, Nat.add_sub, firstn_app, Nat.sub_diag, firstn_all.
      simpl firstn. rewrite app_nil_r. simpl skipn.
      repeat split; auto; try lia.
    + apply IH in H. destruct H as (j & rest & Hi & Hj & Hsk & Hl & Hmin).
      exists (S j), rest. simpl. repeat split; auto; try lia.
      intros [|j'] Hlt; simpl; auto. apply Hmin. lia.
Qed.

Lemma exec_from_none r : forall s i,
  exec_from r s i = None ->
  forall j, match_at r (skipn j s) = None.
Proof.
  induction s as [|x s IH]; intros i H j; simpl in H.
  - destruct (match_at r []) as [[s' c']|] eqn:E; [discriminate|].
    destruct j; simpl; auto.
  - destruct (match_at r (x :: s)) as [[s' c']|] eqn:E; [discriminate|].
    destruct j; simpl; eauto.
Qed.

Lemma has_substring_skipn P s :
  has_substring P s -> exists j, begins_with P (skipn j s).
Proof.
  intros (pre & h & post & -> & Hh). exists (length pre).
  rewrite skipn_app, Nat.sub_diag, skipn_all. simpl. exists h, post. auto.
Qed.

Lemma begins_with_skipn P s j :
  begins_with P (skipn j s) -> has_substring P s.
Proof.
  intros (h & post & E & Hh). exists (firstn j s), h, post.
  rewrite <- E, firstn_skipn. auto.
Qed.

(** A successful match starts at the first offset where the pattern is
    accepted, and [m[0]] is accepted by the pattern. *)
Theorem js_match_some r s m :
  js_match r s = Some m ->
  first_offset (accepts r) s (index m) /\
  (exists rest, skipn (index m) s = whole m ++ rest) /\
  lang r (whole m) None (group1 m).
Proof.
  unfold js_match. intros H. apply exec_from_some in H.
  destruct H as (j & rest & Hi & Hj & Hsk & Hl & Hmin). simpl in Hi. rewrite Hi.
  repeat split; eauto.
  - exists (whole m), rest. split; auto. exists (group1 m). auto.
  - intros j' Hlt. apply match_at_none. auto.
Qed.

Theorem js_match_none r s :
  js_match r s = None -> ~ has_substring (accepts r) s.
Proof.
  intros H Hs. apply has_substring_skipn in Hs. destruct Hs as (j & Hb).
  apply match_at_begins in Hb. apply Hb. eapply exec_from_none. exact H.
Qed.

Theorem js_match_complete r s :
  has_substring (accepts r) s -> exists m, js_match r s = Some m.
Proof.
  intros Hs. destruct (js_match r s) as [m|] eqn:E; eauto.
  apply js_match_none in E. contradiction.
Qed.

(** ** The languages of the two patterns *)

Lemma lang_chars l : forall s c c', lang (chars l) s c c' <-> s = l /\ c' = c.
Proof.
  induction l as [|x l IH]; intros s c c'; simpl.
  - tauto.
  - split.
    + intros (s1 & s2 & cm & -> & [-> ->] & H). apply IH in H.
      destruct H as [-> ->]. auto.
    + intros [-> ->]. exists [x], l, c. repeat split; auto. apply IH. auto.
Qed.

Lemma star_class p s c c' :
  star_of (lang (Class p)) s c c' <-> forallb p s = true /\ c' = c.
Proof.
  split.
  - induction 1 as [c|s1 s2 c0 c1 c2 Hne H1 H2 IH]; simpl; auto.
    destruct H1 as (x & -> & Hp & ->). destruct IH as [IH ->].
    simpl. rewrite Hp, IH. auto.
  - intros [H ->]. induction s as [|x s IH]; [constructor|].
    simpl in H. apply andb_true_iff in H. destruct H as [Hx Hs].
    apply (star_cons _ [x] s c c c); auto; [discriminate|].
    simpl. eauto.
Qed.

Lemma lang_plus_class g p s c c' :
  lang (plus g (Class p)) s c c' <->
  s <> [] /\ forallb p s = true /\ c' = c.
Proof.
  unfold plus. simpl. split.
  - intros (s1 & s2 & cm & -> & (x & -> & Hp & ->) & H).
    apply star_class in H. destruct H as [H ->]. simpl. rewrite Hp, H.
    repeat split; auto. discriminate.
  - intros (Hne & H & ->). destruct s as [|x s]; [congruence|].
    simpl in H. apply andb_true_iff in H. destruct H as [Hx Hs].
    exists [x], s, c. repeat split; eauto. apply star_class. auto.
Qed.

Ltac break_lang :=
  repeat match goal with
  | H : exists _, _ |- _ => destruct H
  | H : _ /\ _ |- _ => destruct H
  end; subst.

Lemma lang_cons_class p r x s c c' :
  p x = true -> lang r s c c' -> lang (Seq (Class p) r) (x :: s) c c'.
Proof. intros Hp H. exists [x], s, c. simpl. eauto 10. Qed.

Lemma lang_cons_chr x r s c c' :
  lang r s c c' -> lang (Seq (Chr x) r) (x :: s) c c'.
Proof. intros H. exists [x], s, c. simpl. auto. Qed.

Lemma lang_seq_eps r s c c' : lang r s c c' -> lang (Seq Eps r) s c c'.
Proof. intros H. exists [], s, c. simpl. auto. Qed.

Lemma lang_seq_assoc r1 r2 r3 s c c' :
  lang (Seq r1 (Seq r2 r3)) s c c' -> lang (Seq (Seq r1 r2) r3) s c c'.
Proof.
  intros (s1 & s23 & c1 & -> & H1 & s2 & s3 & c2 & -> & H2 & H3).
  exists (s1 ++ s2), s3, c2. rewrite <- app_assoc. repeat split; auto.
  exists s1, s2, c1. auto.
Qed.

Lemma lang_eps_nil c : lang Eps [] c c.
Proof. simpl. auto. Qed.

Ltac build_lang :=
  repeat first
    [ apply lang_eps_nil
    | apply lang_seq_eps
    | apply lang_seq_assoc
    | apply lang_cons_chr
    | apply lang_cons_class; [assumption|] ].

Lemma lang_timestamp t c c' :
  lang timestamp_re t c c' <-> timestampb t = true /\ c' = c.
Proof.
  split.
  - unfold timestamp_re. simpl. intros H. break_lang. simpl.
    repeat match goal with H : _ = true |- _ => rewrite H; clear H end.
    auto.
  - intros [H ->].
    do 12 (destruct t as [|? t]; [discriminate|]).
    destruct t; [|discriminate]. simpl in H.
    rewrite !andb_true_iff in H. break_lang.
    repeat match goal with H : (_ =? _) = true |- _ => apply N.eqb_eq in H; subst end.
    unfold timestamp_re. cbn [times]. build_lang.
Qed.

Lemma lang_seq_app r1 r2 s1 s2 c c1 c2 :
  lang r1 s1 c c1 -> lang r2 s2 c1 c2 -> lang (Seq r1 r2) (s1 ++ s2) c c2.
Proof. intros. exists s1, s2, c1. auto. Qed.

Lemma lang_seq_nil r1 r2 s c c1 c2 :
  lang r1 [] c c1 -> lang r2 s c1 c2 -> lang (Seq r1 r2) s c c2.
Proof. intros. exists [], s, c1. auto. Qed.

Theorem lang_srtBlock h c c' :
  lang srtBlock_re h c c' <-> cue_header h /\ c' = c.
Proof.
  unfold srtBlock_re. split.
  - intros (d & s1 & c1 & -> & Hd & w & s2 & c2 & -> & Hw & nl & s3 & c3 & -> & Hnl
            & t1 & s4 & c4 & -> & Ht1 & ar & t2 & c5 & -> & Har & Ht2).
    apply lang_plus_class in Hd. destruct Hd as (Hne & Hd & ->).
    apply star_class in Hw. destruct Hw as (Hw & ->).
    simpl in Hnl. destruct Hnl as [-> ->].
    apply lang_timestamp in Ht1. destruct Ht1 as [Ht1 ->].
    apply lang_chars in Har. destruct Har as [-> ->].
    apply lang_timestamp in Ht2. destruct Ht2 as [Ht2 ->].
    split; auto. exists d, w, t1, t2. unfold timing. repeat split; auto.
  - intros [(d & w & t1 & t2 & -> & Hne & Hd & Hw & Ht1 & Ht2) ->].
    unfold timing.
    apply lang_seq_app with (c1 := c); [apply lang_plus_class; auto|].
    apply lang_seq_app with (c1 := c); [apply star_class; auto|].
    apply lang_seq_app with (c1 := c); [simpl; auto|].
    apply lang_seq_app with (c1 := c); [apply lang_timestamp; auto|].
    apply lang_seq_app with (c1 := c); [apply lang_chars; auto|].
    apply lang_timestamp; auto.
Qed.

Lemma accepts_srtBlock h : accepts srtBlock_re h <-> cue_header h.
Proof.
  unfold accepts. split.
  - intros (c' & H). apply lang_srtBlock in H. tauto.
  - intros H. exists None. apply lang_srtBlock. auto.
Qed.

(** ** [trim] *)

Lemma trimStart_ws w s : forallb is_ws w = true -> trimStart (w ++ s) = trimStart s.
Proof.
  induction w as [|x w IH]; simpl; auto.
  intros H. apply andb_true_iff in H. destruct H as [Hx Hw]. rewrite Hx. auto.
Qed.

Lemma trimStart_head x s : is_ws x = false -> trimStart (x :: s) = x :: s.
Proof. intros H. simpl. rewrite H. auto. Qed.

Lemma trimStart_length s : (length (trimStart s) <= length s)%nat.
Proof.
  induction s as [|x s IH]; simpl; auto. destruct (is_ws x); simpl; lia.
Qed.

Lemma trimStart_fixed_head x s : trimStart (x :: s) = x :: s -> is_ws x = false.
Proof.
  simpl. destruct (is_ws x); auto. intros H.
  pose proof (trimStart_length s) as L. rewrite H in L. simpl in L. lia.
Qed.

Lemma trimStart_idem s : trimStart (trimStart s) = trimStart s.
Proof.
  induction s as [|x s IH]; simpl; auto.
  destruct (is_ws x) eqn:E; auto. simpl. rewrite E. auto.
Qed.

(** [trimStart] drops a prefix made of white space. *)
Lemma trimStart_split s :
  exists w, s = w ++ trimStart s /\ forallb is_ws w = true.
Proof.
  induction s as [|x s (w & E & Hw)]; simpl.
  - exists []. auto.
  - destruct (is_ws x) eqn:Hx.
    + exists (x :: w). simpl. rewrite Hx, Hw. rewrite <- E. auto.
    + exists []. auto.
Qed.

Lemma trimEnd_ws s w : forallb is_ws w = true -> trimEnd (s ++ w) = trimEnd s.
Proof.
  intros H. unfold trimEnd. rewrite rev_app_distr, trimStart_ws; auto.
  rewrite forallb_forall in *. intros x Hx. apply H. apply in_rev. auto.
Qed.

Lemma trimEnd_last s x : is_ws x = false -> trimEnd (s ++ [x]) = s ++ [x].
Proof.
  intros H. unfold trimEnd. rewrite rev_app_distr. simpl. rewrite H.
  simpl. rewrite rev_involutive. auto.
Qed.

Lemma trimEnd_idem s : trimEnd (trimEnd s) = trimEnd s.
Proof. unfold trimEnd. rewrite rev_involutive, trimStart_idem. auto. Qed.

Lemma trimEnd_split s :
  exists w, s = trimEnd s ++ w /\ forallb is_ws w = true.
Proof.
  destruct (trimStart_split (rev s)) as (w & E & Hw).
  exists (rev w). split.
  - unfold trimEnd. rewrite <- rev_app_distr, <- E, rev_involutive. auto.
  - rewrite forallb_forall in *. intros x Hx. apply Hw. apply in_rev. auto.
Qed.

(** A nonempty suffix of a string that [trimEnd] leaves alone is left alone
    too. *)
Lemma trimEnd_suffix a b : trimEnd (a ++ b) = a ++ b -> b <> [] -> trimEnd b = b.
Proof.
  intros H Hb. unfold trimEnd in *.
  apply (f_equal (@rev N)) in H. rewrite rev_involutive, rev_app_distr in H.
  destruct (rev b) as [|x rb] eqn:E.
  { apply (f_equal (@rev N)) in E. rewrite rev_involutive in E. simpl in E. congruence. }
  simpl app in H. apply trimStart_fixed_head in H.
  rewrite trimStart_head by auto. rewrite <- E, rev_involutive. auto.
Qed.

Lemma trimStart_trimEnd s : trimStart s = s -> trimStart (trimEnd s) = trimEnd s.
Proof.
  intros H. destruct (trimEnd_split s) as (w & E & Hw).
  destruct (trimEnd s) as [|x u] eqn:Eu; auto.
  rewrite E in H. simpl app in H. apply trimStart_fixed_head in H.
  apply trimStart_head. auto.
Qed.

(** What [trim] returns, [trim] leaves alone. *)
Theorem trim_idem s : trim (trim s) = trim s.
Proof.
  unfold trim. rewrite trimStart_trimEnd by apply trimStart_idem.
  apply trimEnd_idem.
Qed.

Lemma trim_ws_start w s : forallb is_ws w = true -> trim (w ++ s) = trim s.
Proof. intros H. unfold trim. rewrite trimStart_ws; auto. Qed.

Lemma trim_fixed s : trimStart s = s -> trimEnd s = s -> trim s = s.
Proof. intros H1 H2. unfold trim. rewrite H1. auto. Qed.

(** A nonempty suffix of a trimmed string that starts on a code unit that is
    no white space is trimmed. *)
Lemma trim_suffix a x b :
  trim (a ++ x :: b) = a ++ x :: b -> is_ws x = false -> trim (x :: b) = x :: b.
Proof.
  intros H Hx. apply trim_fixed.
  - apply trimStart_head; auto.
  - apply (trimEnd_suffix a); [|discriminate].
    rewrite <- H at 1. unfold trim. rewrite trimEnd_idem. exact H.
Qed.

(** White space around a string with no white space at either end. *)
Lemma trim_around before x mid y after :
  forallb is_ws before = true -> forallb is_ws after = true ->
  is_ws x = false -> is_ws y = false ->
  trim (before ++ (x :: mid ++ [y]) ++ after) = x :: mid ++ [y].
Proof.
  intros Hb Ha Hx Hy. unfold trim. rewrite trimStart_ws by auto.
  simpl app. rewrite trimStart_head by auto.
  change (x :: (mid ++ [y]) ++ after) with ((x :: mid ++ [y]) ++ after).
  rewrite trimEnd_ws by auto.
  change (x :: mid ++ [y]) with ((x :: mid) ++ [y]).
  apply trimEnd_last. auto.
Qed.

(** ** The markdown pattern *)

Lemma lang_markdown h c c' :
  lang markdown_re h c c' ->
  exists t w g,
    h = fence ++ t ++ w ++ [10] ++ g ++ closing /\
    srt_or_untagged t /\ forallb is_ws w = true /\ g <> [] /\ c' = Some g.
Proof.
  unfold markdown_re.
  intros (f & s1 & c1 & -> & Hf & t & s2 & c2 & -> & Ht & w & s3 & c3 & -> & Hw
          & nl & s4 & c4 & -> & Hnl & g & cl & c5 & -> & Hg & Hcl).
  apply lang_chars in Hf. destruct Hf as [-> ->].
  apply star_class in Hw. destruct Hw as [Hw ->].
  simpl in Hnl. destruct Hnl as [-> ->].
  destruct Hg as (cm & Hg & ->). apply lang_plus_class in Hg.
  destruct Hg as (Hne & _ & ->).
  apply lang_chars in Hcl. destruct Hcl as [-> ->].
  exists t, w, g. repeat split; auto.
  destruct Ht as [[-> ->]|[_ Ht]].
  - right. auto.
  - apply lang_chars in Ht. destruct Ht as [-> ->]. left. auto.
Qed.

Lemma lang_markdown_intro tag interior :
  srt_or_untagged tag -> interior <> [] ->
  lang markdown_re (fence ++ tag ++ [10] ++ interior ++ closing)
       None (Some interior).
Proof.
  intros Ht Hne. unfold markdown_re.
  apply lang_seq_app with (c1 := None); [apply lang_chars; auto|].
  apply lang_seq_app with (c1 := None).
  { destruct Ht as [->| ->]; simpl.
    - right. split; [discriminate|]. apply (lang_chars (lit "srt")). auto.
    - left. auto. }
  apply lang_seq_nil with (c1 := None); [apply star_class; auto|].
  apply lang_cons_chr.
  apply lang_seq_app with (c1 := Some interior); [|apply lang_chars; auto].
  exists None. split; auto. apply lang_plus_class. repeat split; auto.
  apply forallb_forall. auto.
Qed.

(** With no closing fence inside the interior, the closing fence of the
    pattern can only be the one that ends the block. *)
Lemma closing_unique : forall x interior rest,
  no_closing_inside interior ->
  x ++ closing ++ rest = interior ++ closing ->
  rest = [] /\ x = interior.
Proof.
  induction x as [|a x IH]; intros interior rest Hno E.
  - simpl in E. destruct interior as [|i0 interior].
    { simpl in E. injection E as ->. auto. }
    exfalso.
    destruct interior as [|i1 interior]; [discriminate|].
    destruct interior as [|i2 interior]; [discriminate|].
    destruct interior as [|i3 interior]; [discriminate|].
    injection E as <- <- <- <- E.
    apply (Hno [] interior). reflexivity.
  - destruct interior as [|i0 interior].
    { apply (f_equal (@length N)) in E. simpl in E.
      rewrite length_app in E. simpl in E. lia. }
    injection E as <- E. apply IH in E.
    + destruct E as [-> ->]. auto.
    + intros p q Hpq. apply (Hno (a :: p) q). rewrite Hpq. reflexivity.
Qed.

Lemma match_at_index0 r s rest c' :
  match_at r s = Some (rest, c') ->
  js_match r s = Some (MatchResult 0 (firstn (length s - length rest) s) c').
Proof.
  intros E. unfold js_match. destruct s; cbn [exec_from]; rewrite E; reflexivity.
Qed.

(** On a block with a nonempty interior the capture is the interior, short
    of white space at its start. *)
Lemma markdown_capture tag interior :
  srt_or_untagged tag -> interior <> [] -> no_closing_inside interior ->
  exists m w g,
    js_match markdown_re (fence ++ tag ++ [10] ++ interior ++ closing) = Some m /\
    group1 m = Some g /\ g <> [] /\
    interior = w ++ g /\ forallb is_ws w = true.
Proof.
  intros Ht Hne Hno.
  set (x := fence ++ tag ++ [10] ++ interior ++ closing).
  destruct (match_at markdown_re x) as [[rest c']|] eqn:E.
  2:{ exfalso. revert E. apply match_at_begins.
      exists x, []. rewrite app_nil_r. split; auto.
      exists (Some interior). apply lang_markdown_intro; auto. }
  pose proof (match_at_index0 _ _ _ _ E) as Hm.
  apply match_at_some in E. destruct E as (h & Hx & Hl).
  apply lang_markdown in Hl.
  destruct Hl as (t & w & g & -> & Ht' & Hw & Hg & ->).
  cut (exists w', interior = w' ++ g /\ forallb is_ws w' = true).
  { intros (w' & Hi & Hw'). eexists _, w', g. split; [exact Hm|]. auto. }
  unfold x, fence in Hx. simpl in Hx. injection Hx as Hx.
  assert (Hx' : w ++ 10 :: g ++ closing ++ rest = 10 :: interior ++ closing).
  { destruct Ht as [->| ->]; destruct Ht' as [->| ->]; simpl in Hx.
    - injection Hx as Hx. rewrite <- ?app_assoc in Hx. simpl in Hx.
      rewrite <- ?app_assoc in Hx. symmetry. exact Hx.
    - exfalso. destruct w as [|w0 w]; simpl in Hx; [discriminate|].
      injection Hx as <- _. simpl in Hw. discriminate.
    - discriminate Hx.
    - rewrite <- ?app_assoc in Hx. simpl in Hx.
      rewrite <- ?app_assoc in Hx. symmetry. exact Hx. }
  clear Hx.
  destruct w as [|w0 w].
  - cbn [app] in Hx'. injection Hx' as Hx'.
    assert (E : g ++ closing ++ rest = interior ++ closing) by exact Hx'.
    apply closing_unique in E; auto. destruct E as [_ ->].
    exists []. auto.
  - cbn [app] in Hx'. injection Hx' as -> Hx'.
    assert (E : (w ++ 10 :: g) ++ closing ++ rest = interior ++ closing)
      by (rewrite <- app_assoc; exact Hx').
    apply closing_unique in E; auto. destruct E as [_ <-].
    exists (w ++ [10]). split.
    + rewrite <- app_assoc. reflexivity.
    + simpl in Hw. rewrite forallb_app. simpl. rewrite Hw. reflexivity.
Qed.

Theorem unwrap_fenced tag interior :
  srt_or_untagged tag -> interior <> [] -> no_closing_inside interior ->
  unwrap_markdown (fence ++ tag ++ [10] ++ interior ++ closing) = trim interior.
Proof.
  intros Ht Hne Hno.
  destruct (markdown_capture tag interior Ht Hne Hno)
    as (m & w & g & Hm & Hg & Hgne & -> & Hw).
  unfold unwrap_markdown. rewrite Hm, Hg.
  destruct g as [|g0 g]; [congruence|].
  rewrite trim_ws_start; auto.
Qed.

Lemma trim_fenced tag interior before after :
  forallb is_ws before = true -> forallb is_ws after = true ->
  trim (fenced tag interior before after)
  = fence ++ tag ++ [10] ++ interior ++ closing.
Proof.
  intros Hb Ha. unfold fenced.
  replace (fence ++ tag ++ [10] ++ interior ++ closing ++ after)
    with ((96 :: ([96; 96] ++ tag ++ [10] ++ interior ++ [10; 96; 96]) ++ [96]) ++ after).
  2:{ unfold fence, closing. simpl. rewrite <- !app_assoc. simpl.
      rewrite <- !app_assoc. reflexivity. }
  rewrite trim_around; auto.
  unfold fence, closing. simpl. rewrite <- !app_assoc. simpl.
  rewrite <- !app_assoc. reflexivity.
Qed.

Theorem clean_fenced tag interior before after :
  srt_or_untagged tag ->
  forallb is_ws before = true -> forallb is_ws after = true ->
  interior <> [] -> no_closing_inside interior ->
  clean (fenced tag interior before after) = trim interior.
Proof.
  intros. unfold clean. rewrite trim_fenced by auto. apply unwrap_fenced; auto.
Qed.

(** ** The cue header, in the words of the code and of the specification *)

Lemma has_substring_ext (P Q : jsstring -> Prop) s :
  (forall h, P h -> Q h) -> has_substring P s -> has_substring Q s.
Proof. intros HPQ (pre & h & post & E & Hh). exists pre, h, post. auto. Qed.

Lemma begins_with_ext (P Q : jsstring -> Prop) s :
  (forall h, P h -> Q h) -> begins_with P s -> begins_with Q s.
Proof. intros HPQ (h & post & E & Hh). exists h, post. auto. Qed.

Lemma first_offset_ext (P Q : jsstring -> Prop) s i :
  (forall h, P h <-> Q h) -> first_offset P s i -> first_offset Q s i.
Proof.
  intros HPQ (Hi & Hb & Hmin). repeat split; auto.
  - revert Hb. apply begins_with_ext. apply HPQ.
  - intros j Hj Hq. apply (Hmin j Hj). revert Hq. apply begins_with_ext. apply HPQ.
Qed.

Lemma lang_spec_cue h c c' :
  lang spec_cue_re h c c' <-> spec_cue_header h /\ c' = c.
Proof.
  unfold spec_cue_re. split.
  - intros (d & s1 & c1 & -> & Hd & nl & s3 & c3 & -> & Hnl
            & t1 & s4 & c4 & -> & Ht1 & ar & t2 & c5 & -> & Har & Ht2).
    apply lang_plus_class in Hd. destruct Hd as (Hne & Hd & ->).
    simpl in Hnl. destruct Hnl as [-> ->].
    apply lang_timestamp in Ht1. destruct Ht1 as [Ht1 ->].
    apply lang_chars in Har. destruct Har as [-> ->].
    apply lang_timestamp in Ht2. destruct Ht2 as [Ht2 ->].
    split; auto. exists d, t1, t2. unfold timing. repeat split; auto.
  - intros [(d & t1 & t2 & -> & Hne & Hd & Ht1 & Ht2) ->].
    unfold timing.
    apply lang_seq_app with (c1 := c); [apply lang_plus_class; auto|].
    apply lang_seq_app with (c1 := c); [simpl; auto|].
    apply lang_seq_app with (c1 := c); [apply lang_timestamp; auto|].
    apply lang_seq_app with (c1 := c); [apply lang_chars; auto|].
    apply lang_timestamp; auto.
Qed.

Lemma accepts_spec_cue h : accepts spec_cue_re h <-> spec_cue_header h.
Proof.
  unfold accepts. split.
  - intros (c' & H). apply lang_spec_cue in H. tauto.
  - intros H. exists None. apply lang_spec_cue. auto.
Qed.

(** The search decides whether a string holds a cue header. *)
Lemma no_cue_header s :
  js_match srtBlock_re s = None -> ~ has_substring cue_header s.
Proof.
  intros H Hs. apply (js_match_none _ _ H).
  revert Hs. apply has_substring_ext. apply accepts_srtBlock.
Qed.

Lemma no_spec_cue_header s :
  js_match spec_cue_re s = None -> ~ has_substring spec_cue_header s.
Proof.
  intros H Hs. apply (js_match_none _ _ H).
  revert Hs. apply has_substring_ext. apply accepts_spec_cue.
Qed.

Lemma search_finds_cue_header s :
  has_substring cue_header s -> exists m, js_match srtBlock_re s = Some m.
Proof.
  intros Hs. apply js_match_complete.
  revert Hs. apply has_substring_ext. apply accepts_srtBlock.
Qed.

Lemma search_first_cue_header s m :
  js_match srtBlock_re s = Some m -> first_offset cue_header s (index m).
Proof.
  intros H. apply js_match_some in H. destruct H as (H & _).
  revert H. apply first_offset_ext. apply accepts_srtBlock.
Qed.

Lemma stamp_with_timestamp sep t :
  sep = 44 \/ sep = 46 -> stamp_with sep t = true -> timestampb t = true.
Proof.
  intros Hsep H.
  do 12 (destruct t as [|? t]; [discriminate|]).
  destruct t; [|discriminate]. cbn [stamp_with timestampb] in *.
  rewrite !andb_true_iff in *.
  repeat match goal with H : _ /\ _ |- _ => destruct H end.
  repeat split; auto.
  match goal with H : (_ =? sep) = true |- _ => apply N.eqb_eq in H; subst end.
  destruct Hsep as [->| ->]; reflexivity.
Qed.

Lemma cue_header_with_sep sep h :
  sep = 44 \/ sep = 46 -> cue_header_with sep h -> cue_header h.
Proof.
  intros Hsep (d & w & t1 & t2 & E & Hne & Hd & Hw & H1 & H2).
  exists d, w, t1, t2. repeat split; eauto using stamp_with_timestamp.
Qed.

(** A digit is no white space. *)
Lemma digit_not_ws x : is_digit x = true -> is_ws x = false.
Proof.
  unfold is_digit, is_ws. intros H. apply andb_true_iff in H.
  destruct H as [H1 H2]. apply N.leb_le in H1, H2.
  repeat rewrite orb_false_iff. repeat rewrite andb_false_iff.
  repeat split; try (apply N.eqb_neq; lia);
    solve [right; apply N.leb_gt; lia | left; apply N.leb_gt; lia].
Qed.

Lemma cue_header_head h :
  cue_header h -> exists x rest, h = x :: rest /\ is_ws x = false.
Proof.
  intros (d & w & t1 & t2 & -> & Hne & Hd & _).
  destruct d as [|x d]; [congruence|]. simpl in Hd.
  apply andb_true_iff in Hd. destruct Hd as [Hx _].
  eexists x, _. split; [reflexivity|]. apply digit_not_ws. auto.
Qed.

(** ** [generateSrtFromAudio] *)

Lemma clean_trimmed t : trim (clean t) = clean t.
Proof.
  unfold clean, unwrap_markdown.
  destruct (js_match markdown_re (trim t)) as [m|]; [|apply trim_idem].
  destruct (group1 m) as [[|g0 g]|]; apply trim_idem.
Qed.

Lemma generate_responds ai b64 mime lang r t :
  ai (build_request b64 mime lang) = ServiceResponds r ->
  text r = Text t ->
  generateSrtFromAudio ai b64 mime lang =
  match js_match srtBlock_re (clean t) with
  | Some m => Resolved (substring (index m) (clean t))
  | None => Rejected (if finished_for_safety r then SafetyBlocked else NoValidSrt)
  end.
Proof.
  intros Hai Ht. unfold generateSrtFromAudio, try_block. rewrite Hai, Ht.
  destruct (js_match srtBlock_re (clean t)); auto.
  destruct (finished_for_safety r); reflexivity.
Qed.

Lemma generate_resolved ai b64 mime lang out :
  generateSrtFromAudio ai b64 mime lang = Resolved out ->
  exists r t m,
    ai (build_request b64 mime lang) = ServiceResponds r /\ text r = Text t /\
    js_match srtBlock_re (clean t) = Some m /\
    out = substring (index m) (clean t).
Proof.
  unfold generateSrtFromAudio, try_block.
  destruct (ai (build_request b64 mime lang)) as [e|r]; [discriminate|].
  destruct (text r) as [t|e] eqn:Ht; [|discriminate].
  destruct (js_match srtBlock_re (clean t)) as [m|] eqn:Em.
  - intros H. injection H as <-. exists r, t, m. auto.
  - destruct (finished_for_safety r); discriminate.
Qed.

(** The document is trimmed already: it starts on a digit and ends where the
    trimmed text ends. *)
Lemma suffix_from_header_trimmed s i :
  trim s = s -> begins_with cue_header (skipn i s) -> trim (skipn i s) = skipn i s.
Proof.
  intros Hs (h & post & E & Hh).
  destruct (cue_header_head h Hh) as (x & rest & -> & Hx).
  rewrite E. simpl app.
  apply (trim_suffix (firstn i s)); auto.
  change (x :: rest ++ post) with ((x :: rest) ++ post).
  rewrite <- E, firstn_skipn. auto.
Qed.

(** ** [includes] *)

Lemma startsWith_app p s : startsWith p (p ++ s) = true.
Proof. induction p as [|a p IH]; simpl; auto. rewrite N.eqb_refl. auto. Qed.

Lemma includes_app a p b : includes p (a ++ p ++ b) = true.
Proof.
  induction a as [|x a IH].
  - simpl app. destruct (p ++ b) eqn:E; simpl; rewrite <- E;
      rewrite startsWith_app; reflexivity.
  - simpl. rewrite IH. apply orb_true_r.
Qed.

Lemma not_included p s : includes p s = false -> forall a b, s <> a ++ p ++ b.
Proof.
  intros H a b ->. rewrite includes_app in H. discriminate.
Qed.

Lemma no_closing_inside_dec interior :
  includes closing interior = false -> no_closing_inside interior.
Proof. intros H. exact (not_included _ _ H). Qed.

(** ** A cue header survives [trim] *)

Lemma trimStart_keeps pre x rest :
  is_ws x = false -> exists pre', trimStart (pre ++ x :: rest) = pre' ++ x :: rest.
Proof.
  intros Hx. induction pre as [|a pre (pre' & IH)].
  - exists []. simpl. rewrite Hx. auto.
  - simpl. destruct (is_ws a).
    + exists pre'. auto.
    + exists (a :: pre). auto.
Qed.

Lemma trimEnd_keeps s y post :
  is_ws y = false -> exists post', trimEnd (s ++ y :: post) = s ++ y :: post'.
Proof.
  intros Hy. unfold trimEnd. rewrite rev_app_distr. simpl rev.
  rewrite <- app_assoc. simpl app.
  destruct (trimStart_keeps (rev post) y (rev s) Hy) as (p & ->).
  exists (rev p). rewrite rev_app_distr. simpl. rewrite rev_involutive.
  rewrite <- app_assoc. reflexivity.
Qed.

Lemma cue_header_ends h :
  cue_header h ->
  exists x mid y, h = x :: mid ++ [y] /\ is_ws x = false /\ is_ws y = false.
Proof.
  intros (d & w & t1 & t2 & -> & Hne & Hd & _ & _ & H2).
  destruct d as [|x d]; [congruence|]. simpl in Hd.
  apply andb_true_iff in Hd. destruct Hd as [Hx _].
  destruct t2 as [|a1 [|a2 [|a3 [|a4 [|a5 [|a6 [|a7 [|a8 [|a9 [|a10 [|a11
    [|f [|? ?]]]]]]]]]]]]]; try discriminate.
  cbn [timestampb] in H2. rewrite !andb_true_iff in H2.
  destruct H2 as (_ & Hf).
  exists x, (d ++ w ++ [10] ++ t1 ++ lit " --> " ++
             [a1; a2; a3; a4; a5; a6; a7; a8; a9; a10; a11]), f.
  split; [|split; apply digit_not_ws; auto].
  unfold timing. simpl. f_equal. rewrite <- !app_assoc. simpl.
  rewrite <- !app_assoc. reflexivity.
Qed.

Theorem cue_header_survives_trim s :
  has_substring cue_header s -> has_substring cue_header (trim s).
Proof.
  intros (pre & h & post & -> & Hh).
  destruct (cue_header_ends h Hh) as (x & mid & y & E & Hx & Hy).
  unfold trim. rewrite E. simpl app.
  destruct (trimStart_keeps pre x ((mid ++ [y]) ++ post) Hx) as (pre' & ->).
  replace (pre' ++ x :: (mid ++ [y]) ++ post)
    with ((pre' ++ x :: mid) ++ y :: post)
    by (rewrite <- !app_assoc; reflexivity).
  destruct (trimEnd_keeps (pre' ++ x :: mid) y post Hy) as (post' & ->).
  exists pre', h, post'. split; [|exact Hh].
  rewrite E, <- !app_assoc. simpl. rewrite <- !app_assoc. reflexivity.
Qed.

(** Without a fenced block in it, a text keeps its cue header through the
    cleaning. *)
Theorem unfenced_text_keeps_header t :
  js_match markdown_re (trim t) = None ->
  has_substring cue_header t -> has_substring cue_header (clean t).
Proof.
  intros Hm Hs. unfold clean, unwrap_markdown. rewrite Hm.
  apply cue_header_survives_trim. auto.
Qed.

(** ** The safety block *)

(** C1, as the specification states it, fails: a response that finished for
    safety and still carries a cue header is returned as a document. *)
Lemma safety_block_with_cue_is_returned :
  let t := lit "1\n00:00:01,000 --> 00:00:02,000\nHi" in
  finished_for_safety (Response (Text t) SAFETY) = true /\
  generateSrtFromAudio (responds t SAFETY) [] (lit "audio/webm") original
    = Resolved t /\
  generateSrtFromAudio (responds t SAFETY) [] (lit "audio/webm") original
    <> Rejected SafetyBlocked.
Proof. vm_compute. split; [reflexivity | split; [reflexivity | discriminate]]. Qed.

(** C1, amended: the safety signal is looked at only after the extraction
    has found no cue header.  A response that finished for safety is rejected
    with the safety error when its cleaned text holds no cue header, and is
    returned as a document when it holds one. *)
Theorem safety_block_after_extraction ai b64 mime lang r t :
  ai (build_request b64 mime lang) = ServiceResponds r ->
  text r = Text t ->
  finished_for_safety r = true ->
  (~ has_substring cue_header (clean t) ->
   generateSrtFromAudio ai b64 mime lang = Rejected SafetyBlocked) /\
  (has_substring cue_header (clean t) ->
   exists out, generateSrtFromAudio ai b64 mime lang = Resolved out).
Proof.
  intros Hai Ht Hs. rewrite (generate_responds _ _ _ _ _ _ Hai Ht), Hs.
  destruct (js_match srtBlock_re (clean t)) as [m|] eqn:Em; split; eauto.
  - intros Hno. exfalso. apply Hno.
    apply search_first_cue_header in Em. destruct Em as (_ & Hb & _).
    eapply begins_with_skipn; eauto.
  - intros Hs'. apply no_cue_header in Em. contradiction.
Qed.

Lemma safety_block_after_extraction_witness :
  generateSrtFromAudio (responds (lit "I cannot process this audio.") SAFETY)
    [] (lit "audio/webm") original = Rejected SafetyBlocked.
Proof.
  apply (safety_block_after_extraction
           (responds (lit "I cannot process this audio.") SAFETY)
           [] (lit "audio/webm") original
           (Response (Text (lit "I cannot process this audio.")) SAFETY)
           (lit "I cannot process this audio.")).
  - reflexivity.
  - reflexivity.
  - vm_compute. reflexivity.
  - apply no_cue_header. vm_compute. reflexivity.
Defined.

(** ** No cue header *)

(** C2, as the specification states it, fails twice: white space between the
    digits and the line break is accepted by the code's pattern, and a
    response that finished for safety is rejected with the safety error. *)
Lemma no_spec_header_yet_not_NoValidSrt :
  (let t := lit "7 \n00:00:01,000 --> 00:00:02,000\nHi" in
   ~ has_substring spec_cue_header (clean t) /\
   generateSrtFromAudio (responds t STOP) [] (lit "audio/webm") original
     = Resolved t) /\
  (let t := lit "I cannot process this audio." in
   ~ has_substring spec_cue_header (clean t) /\
   generateSrtFromAudio (responds t SAFETY) [] (lit "audio/webm") original
     = Rejected SafetyBlocked /\
   SafetyBlocked <> NoValidSrt).
Proof.
  split; [split | split; [|split]].
  - apply no_spec_cue_header. vm_compute. reflexivity.
  - vm_compute. reflexivity.
  - apply no_spec_cue_header. vm_compute. reflexivity.
  - vm_compute. reflexivity.
  - vm_compute. discriminate.
Qed.

(** C2, amended: when the response did not finish for safety and no
    substring of the cleaned text is a cue header in the sense of the code
    (digits, any white space, a line break, a timing line), the call is
    rejected with the no-valid-SRT error and returns no document. *)
Theorem no_cue_header_is_NoValidSrt ai b64 mime lang r t :
  ai (build_request b64 mime lang) = ServiceResponds r ->
  text r = Text t ->
  finished_for_safety r = false ->
  ~ has_substring cue_header (clean t) ->
  generateSrtFromAudio ai b64 mime lang = Rejected NoValidSrt /\
  forall out, generateSrtFromAudio ai b64 mime lang <> Resolved out.
Proof.
  intros Hai Ht Hs Hno. rewrite (generate_responds _ _ _ _ _ _ Hai Ht), Hs.
  destruct (js_match srtBlock_re (clean t)) as [m|] eqn:Em.
  - exfalso. apply Hno.
    apply search_first_cue_header in Em. destruct Em as (_ & Hb & _).
    eapply begins_with_skipn; eauto.
  - split; [reflexivity | discriminate].
Qed.

Lemma no_cue_header_is_NoValidSrt_witness :
  generateSrtFromAudio (responds (lit "I cannot process this audio.") STOP)
    [] (lit "audio/webm") original = Rejected NoValidSrt.
Proof.
  apply (no_cue_header_is_NoValidSrt
           (responds (lit "I cannot process this audio.") STOP)
           [] (lit "audio/webm") original
           (Response (Text (lit "I cannot process this audio.")) STOP)
           (lit "I cannot process this audio.")).
  - reflexivity.
  - reflexivity.
  - vm_compute. reflexivity.
  - apply no_cue_header. vm_compute. reflexivity.
Defined.

(** ** The returned document *)

(** C3, as the specification states it, fails in its last part: the document
    need not begin with an index line followed at once by a timing line. *)
Lemma document_with_blank_line_after_index :
  let t := lit "1\n\n00:00:01,000 --> 00:00:02,000\nHi" in
  generateSrtFromAudio (responds t STOP) [] (lit "audio/webm") original
    = Resolved t /\
  ~ begins_with spec_cue_header t.
Proof.
  split.
  - vm_compute. reflexivity.
  - intros H.
    apply (begins_with_ext _ (accepts spec_cue_re)) in H;
      [|apply accepts_spec_cue].
    revert H. apply match_at_none. vm_compute. reflexivity.
Qed.

(** C3, amended: the document is the cleaned (trimmed, markdown-unwrapped)
    text from the first offset at which a cue header begins to its end; that
    substring is already trimmed; it begins with digits, any white space
    (blank lines included), a line break and a timing line; whatever follows
    is kept as it is. *)
Theorem document_is_suffix_from_first_header ai b64 mime lang out :
  generateSrtFromAudio ai b64 mime lang = Resolved out ->
  exists r t i,
    ai (build_request b64 mime lang) = ServiceResponds r /\
    text r = Text t /\
    first_offset cue_header (clean t) i /\
    out = substring i (clean t) /\
    out = trim (substring i (clean t)) /\
    begins_with cue_header out /\
    clean t = firstn i (clean t) ++ out.
Proof.
  intros H. apply generate_resolved in H.
  destruct H as (r & t & m & Hai & Ht & Em & ->).
  apply search_first_cue_header in Em.
  exists r, t, (index m). unfold substring.
  destruct Em as (Hi & Hb & Hmin).
  repeat split; auto.
  - symmetry. apply suffix_from_header_trimmed; auto. apply clean_trimmed.
  - symmetry. apply firstn_skipn.
Qed.

Lemma document_is_suffix_from_first_header_witness :
  exists r t i,
    responds (lit "Intro\n12\n00:00:01,000 --> 00:00:02,000\nHi\n\nbye  ") STOP
      (build_request [] (lit "audio/webm") english) = ServiceResponds r /\
    text r = Text t /\
    first_offset cue_header (clean t) i /\
    lit "12\n00:00:01,000 --> 00:00:02,000\nHi\n\nbye" = substring i (clean t) /\
    lit "12\n00:00:01,000 --> 00:00:02,000\nHi\n\nbye"
      = trim (substring i (clean t)) /\
    begins_with cue_header (lit "12\n00:00:01,000 --> 00:00:02,000\nHi\n\nbye") /\
    clean t = firstn i (clean t)
              ++ lit "12\n00:00:01,000 --> 00:00:02,000\nHi\n\nbye".
Proof.
  apply (document_is_suffix_from_first_header
           (responds (lit "Intro\n12\n00:00:01,000 --> 00:00:02,000\nHi\n\nbye  ") STOP)
           [] (lit "audio/webm") english).
  vm_compute. reflexivity.
Defined.

(** ** The markdown block *)

(** C4, as the specification states it, fails on two kinds of block: one
    with an empty interior is left as it is, fences included, and an interior
    that holds a line starting with three backquotes is cut there. *)
Lemma fenced_block_not_unwrapped_to_interior :
  srt_or_untagged (lit "srt") /\
  clean (fenced (lit "srt") (lit "") (lit "") (lit "")) = lit "```srt\n\n```" /\
  clean (fenced (lit "srt") (lit "") (lit "") (lit "")) <> trim (lit "") /\
  clean (fenced (lit "") (lit "a\n```b") (lit "") (lit "")) = lit "a" /\
  clean (fenced (lit "") (lit "a\n```b") (lit "") (lit ""))
    <> trim (lit "a\n```b").
Proof.
  split; [left; reflexivity|].
  vm_compute. repeat (split; try reflexivity; try discriminate).
Qed.

(** C4, amended: for a response text that is a fenced block (tagged [srt]
    or untagged) with white space around it, whose interior is not empty and
    holds no line break followed by three backquotes, the unwrap step leaves
    exactly the interior, trimmed; and the text of Scenario A is unwrapped to
    its cue. *)
Theorem markdown_unwrap_gives_interior tag interior before after :
  srt_or_untagged tag ->
  forallb is_ws before = true -> forallb is_ws after = true ->
  interior <> [] -> no_closing_inside interior ->
  clean (fenced tag interior before after) = trim interior /\
  clean (lit "Sure! ```srt\n1\n00:00:01,000 --> 00:00:02,000\nHello\n```")
    = lit "1\n00:00:01,000 --> 00:00:02,000\nHello" /\
  generateSrtFromAudio
    (responds (lit "Sure! ```srt\n1\n00:00:01,000 --> 00:00:02,000\nHello\n```") STOP)
    [] (lit "audio/webm") original
    = Resolved (lit "1\n00:00:01,000 --> 00:00:02,000\nHello").
Proof.
  intros. split; [|split].
  - apply clean_fenced; auto.
  - vm_compute. reflexivity.
  - vm_compute. reflexivity.
Qed.

Lemma markdown_unwrap_gives_interior_witness :
  clean (fenced (lit "") (lit "\n 1\n00:00:01,000 --> 00:00:02,000\nHello  ")
                (lit " \n") (lit "\n\n"))
    = trim (lit "\n 1\n00:00:01,000 --> 00:00:02,000\nHello  ") /\
  clean (lit "Sure! ```srt\n1\n00:00:01,000 --> 00:00:02,000\nHello\n```")
    = lit "1\n00:00:01,000 --> 00:00:02,000\nHello" /\
  generateSrtFromAudio
    (responds (lit "Sure! ```srt\n1\n00:00:01,000 --> 00:00:02,000\nHello\n```") STOP)
    [] (lit "audio/webm") original
    = Resolved (lit "1\n00:00:01,000 --> 00:00:02,000\nHello").
Proof.
  apply (markdown_unwrap_gives_interior (lit "")
           (lit "\n 1\n00:00:01,000 --> 00:00:02,000\nHello  ")
           (lit " \n") (lit "\n\n")).
  - right. reflexivity.
  - reflexivity.
  - reflexivity.
  - discriminate.
  - apply no_closing_inside_dec. vm_compute. reflexivity.
Defined.

(** ** The preamble *)

(** C5, as the specification states it, fails when the preamble holds a
    fenced block: the text is replaced by the interior of the block and the
    cue after it is lost. *)
Lemma cue_after_fenced_preamble_is_lost :
  let t := lit "```\nnote\n```\n1\n00:00:00,500 --> 00:00:01,500\nHi there\n" in
  has_substring spec_cue_header t /\
  has_substring cue_header t /\
  generateSrtFromAudio (responds t STOP) [] (lit "audio/webm") original
    = Rejected NoValidSrt.
Proof.
  split; [|split].
  - exists (lit "```\nnote\n```\n"), (lit "1\n00:00:00,500 --> 00:00:01,500"),
           (lit "\nHi there\n").
    split; [reflexivity|].
    exists (lit "1"), (lit "00:00:00,500"), (lit "00:00:01,500").
    repeat split. discriminate.
  - exists (lit "```\nnote\n```\n"), (lit "1\n00:00:00,500 --> 00:00:01,500"),
           (lit "\nHi there\n").
    split; [reflexivity|].
    exists (lit "1"), [], (lit "00:00:00,500"), (lit "00:00:01,500").
    repeat split. discriminate.
  - vm_compute. reflexivity.
Qed.

(** C5, amended: when the cleaned text (trimmed and markdown-unwrapped)
    holds a cue header, the call returns the cleaned text from the first
    offset at which a cue header begins, everything before that offset being
    dropped; a response text that holds a cue header and no fenced block is
    such a text; and the text of Scenario B yields its cue. *)
Theorem preamble_is_discarded ai b64 mime lang r t :
  ai (build_request b64 mime lang) = ServiceResponds r ->
  text r = Text t ->
  has_substring cue_header (clean t)
  \/ (js_match markdown_re (trim t) = None /\ has_substring cue_header t) ->
  (exists i,
     first_offset cue_header (clean t) i /\
     generateSrtFromAudio ai b64 mime lang = Resolved (substring i (clean t)) /\
     clean t = firstn i (clean t) ++ substring i (clean t)) /\
  (forall cands,
     generateSrtFromAudio
       (responds (lit "Here are the subtitles:\n1\n00:00:00,500 --> 00:00:01,500\nHi there\n") cands)
       b64 mime lang
     = Resolved (lit "1\n00:00:00,500 --> 00:00:01,500\nHi there")).
Proof.
  intros Hai Ht Hs. split.
  - assert (Hs' : has_substring cue_header (clean t)).
    { destruct Hs as [Hs|[Hm Hs]]; auto using unfenced_text_keeps_header. }
    rewrite (generate_responds _ _ _ _ _ _ Hai Ht).
    destruct (search_finds_cue_header _ Hs') as (m & Em). rewrite Em.
    exists (index m). split; [apply search_first_cue_header; auto|].
    split; [reflexivity|]. symmetry. apply firstn_skipn.
  - intros cands. unfold generateSrtFromAudio, responds, try_block.
    cbn [text]. vm_compute. reflexivity.
Qed.

Lemma preamble_is_discarded_witness :
  (exists i,
     first_offset cue_header (clean (lit "Sure:\n7 \n00:00:00,500 --> 00:00:01,500\nHi")) i /\
     generateSrtFromAudio (responds (lit "Sure:\n7 \n00:00:00,500 --> 00:00:01,500\nHi") STOP)
       [] (lit "audio/webm") original
     = Resolved (substring i (clean (lit "Sure:\n7 \n00:00:00,500 --> 00:00:01,500\nHi"))) /\
     clean (lit "Sure:\n7 \n00:00:00,500 --> 00:00:01,500\nHi")
     = firstn i (clean (lit "Sure:\n7 \n00:00:00,500 --> 00:00:01,500\nHi"))
       ++ substring i (clean (lit "Sure:\n7 \n00:00:00,500 --> 00:00:01,500\nHi"))) /\
  (forall cands,
     generateSrtFromAudio
       (responds (lit "Here are the subtitles:\n1\n00:00:00,500 --> 00:00:01,500\nHi there\n") cands)
       [] (lit "audio/webm") original
     = Resolved (lit "1\n00:00:00,500 --> 00:00:01,500\nHi there")).
Proof.
  apply (preamble_is_discarded
           (responds (lit "Sure:\n7 \n00:00:00,500 --> 00:00:01,500\nHi") STOP)
           [] (lit "audio/webm") original
           (Response (Text (lit "Sure:\n7 \n00:00:00,500 --> 00:00:01,500\nHi")) STOP)).
  - reflexivity.
  - reflexivity.
  - right. split; [vm_compute; reflexivity|].
    exists (lit "Sure:\n"), (lit "7 \n00:00:00,500 --> 00:00:01,500"), (lit "\nHi").
    split; [reflexivity|].
    exists (lit "7"), (lit " "), (lit "00:00:00,500"), (lit "00:00:01,500").
    repeat split. discriminate.
Defined.

(** ** The millisecond separator *)

(** C6: a cue header whose timestamps use the period (or the comma) as the
    millisecond separator is found by the search, and the call returns the
    document from there instead of failing. *)
Theorem period_separator_is_accepted ai b64 mime lang r t sep :
  ai (build_request b64 mime lang) = ServiceResponds r ->
  text r = Text t ->
  sep = 44 \/ sep = 46 ->
  has_substring (cue_header_with sep) (clean t) ->
  exists m out,
    js_match srtBlock_re (clean t) = Some m /\
    generateSrtFromAudio ai b64 mime lang = Resolved out /\
    out = substring (index m) (clean t) /\
    begins_with cue_header out.
Proof.
  intros Hai Ht Hsep Hs.
  assert (Hs' : has_substring cue_header (clean t)).
  { revert Hs. apply has_substring_ext. intros h. apply cue_header_with_sep. auto. }
  destruct (search_finds_cue_header _ Hs') as (m & Em).
  exists m, (substring (index m) (clean t)).
  rewrite (generate_responds _ _ _ _ _ _ Hai Ht), Em.
  repeat split; auto.
  apply search_first_cue_header in Em. destruct Em as (_ & Hb & _). exact Hb.
Qed.

Lemma period_separator_is_accepted_witness :
  exists m out,
    js_match srtBlock_re (clean (lit "1\n00:00:01.000 --> 00:00:02.000\nHello")) = Some m /\
    generateSrtFromAudio (responds (lit "1\n00:00:01.000 --> 00:00:02.000\nHello") STOP)
      [] (lit "audio/webm") original = Resolved out /\
    out = substring (index m) (clean (lit "1\n00:00:01.000 --> 00:00:02.000\nHello")) /\
    begins_with cue_header out.
Proof.
  apply (period_separator_is_accepted
           (responds (lit "1\n00:00:01.000 --> 00:00:02.000\nHello") STOP)
           [] (lit "audio/webm") original
           (Response (Text (lit "1\n00:00:01.000 --> 00:00:02.000\nHello")) STOP)
           (lit "1\n00:00:01.000 --> 00:00:02.000\nHello") 46).
  - reflexivity.
  - reflexivity.
  - right. reflexivity.
  - exists [], (lit "1\n00:00:01.000 --> 00:00:02.000"), (lit "\nHello").
    split; [vm_compute; reflexivity|].
    exists (lit "1"), [], (lit "00:00:01.000"), (lit "00:00:02.000").
    repeat split. discriminate.
Defined.

(** ** The [catch] block *)

Lemma generate_rejected ai b64 mime lang e :
  generateSrtFromAudio ai b64 mime lang = Rejected e ->
  exists e0,
    try_block (ai (build_request b64 mime lang)) = Rejected e0 /\
    e = catch_block e0.
Proof.
  unfold generateSrtFromAudio.
  destruct (try_block (ai (build_request b64 mime lang))) as [s|e0];
    [discriminate|].
  intros H. injection H as <-. eauto.
Qed.

Lemma try_block_site o e0 :
  try_block o = Rejected e0 ->
  match failure_site_of o with
  | Some AtServiceCall => o = ServiceThrows e0
  | Some AtTextAccess => exists r, o = ServiceResponds r /\ text r = TextThrows e0
  | Some AtSafetyCheck => e0 = JsError safety_message
  | Some AtSrtCheck => e0 = JsError no_valid_srt_message
  | None => False
  end.
Proof.
  unfold try_block, failure_site_of. destruct o as [e|r].
  - intros H. injection H as ->. reflexivity.
  - destruct (text r) as [t|e] eqn:Ht.
    + destruct (js_match srtBlock_re (clean t)); [discriminate|].
      destruct (finished_for_safety r); intros H; injection H as <-; reflexivity.
    + intros H. injection H as ->. eauto.
Qed.

(** ** The sentence shown to the user *)

Lemma toLowerCase_app a b : toLowerCase (a ++ b) = toLowerCase a ++ toLowerCase b.
Proof. apply map_app. Qed.

Lemma includes_prefix p s : includes p (p ++ s) = true.
Proof. apply (includes_app [] p s). Qed.

(** An error wrapped by the [catch] block never gets the default sentence. *)
Lemma errorMessage_wrapped m :
  In (errorMessage (JsError (api_error_prefix ++ m)))
     [format_not_supported; file_too_large; could_not_process;
      flagged_for_safety; service_problem].
Proof.
  unfold errorMessage.
  assert (E : includes (lit "gemini api error")
                (toLowerCase (api_error_prefix ++ m)) = true).
  { rewrite toLowerCase_app.
    change (toLowerCase api_error_prefix)
      with (lit "gemini api error" ++ lit ": ").
    rewrite <- app_assoc. apply includes_prefix. }
  rewrite E. simpl In.
  repeat match goal with
  | |- context [if ?b then _ else _] => destruct b
  end; auto 10.
Qed.

(** C7, as the specification states it, fails: two failures raised at the
    same place, which differ in nothing but the text of their messages, are
    shown with different sentences. *)
Lemma same_site_different_sentences :
  let o1 := ServiceThrows (JsError (lit "400 Unsupported content type")) in
  let o2 := ServiceThrows (JsError (lit "503 The model is overloaded")) in
  failure_site_of o1 = failure_site_of o2 /\
  exists e1 e2,
    generateSrtFromAudio (fun _ => o1) [] (lit "audio/webm") original = Rejected e1 /\
    generateSrtFromAudio (fun _ => o2) [] (lit "audio/webm") original = Rejected e2 /\
    errorMessage e1 = format_not_supported /\
    errorMessage e2 = service_problem /\
    errorMessage e1 <> errorMessage e2.
Proof.
  split; [reflexivity|].
  eexists _, _. split; [reflexivity|]. split; [reflexivity|].
  vm_compute. repeat split; discriminate.
Qed.

(** C7, amended: every failure of [generateSrtFromAudio] reaches the caller
    as an [Error] whose message is its only classification, and the sentence
    is chosen by looking into that message.  A failure raised by the SRT
    check or by the safety check carries a fixed message and gets its own
    sentence; a failure of the service call or of the text accessor gets a
    sentence that depends on the text of its message, never the default one
    when it was an [Error], and the default one otherwise. *)
Theorem sentence_is_chosen_from_message ai b64 mime lang e :
  generateSrtFromAudio ai b64 mime lang = Rejected e ->
  exists site,
    failure_site_of (ai (build_request b64 mime lang)) = Some site /\
    match site with
    | AtSrtCheck => e = NoValidSrt /\ errorMessage e = could_not_process
    | AtSafetyCheck => e = SafetyBlocked /\ errorMessage e = flagged_for_safety
    | AtServiceCall | AtTextAccess =>
        (exists m, e = JsError (api_error_prefix ++ m) /\
           In (errorMessage e)
              [format_not_supported; file_too_large; could_not_process;
               flagged_for_safety; service_problem])
        \/ (e = JsError unknown_error_message /\
            errorMessage e = unexpected_error)
    end.
Proof.
  intros H. apply generate_rejected in H. destruct H as (e0 & Ht & ->).
  apply try_block_site in Ht.
  destruct (failure_site_of (ai (build_request b64 mime lang))) as [site|];
    [|contradiction].
  exists site. split; [reflexivity|].
  destruct site.
  - destruct e0 as [m|].
    + left. exists m. split; [reflexivity|]. apply errorMessage_wrapped.
    + right. split; reflexivity.
  - destruct e0 as [m|].
    + left. exists m. split; [reflexivity|]. apply errorMessage_wrapped.
    + right. split; reflexivity.
  - subst e0. split; reflexivity.
  - subst e0. split; reflexivity.
Qed.

Lemma sentence_is_chosen_from_message_witness :
  exists site,
    failure_site_of
      (responds (lit "I cannot process this audio.") STOP
         (build_request [] (lit "audio/webm") original)) = Some site /\
    match site with
    | AtSrtCheck => NoValidSrt = NoValidSrt /\ errorMessage NoValidSrt = could_not_process
    | AtSafetyCheck =>
        NoValidSrt = SafetyBlocked /\ errorMessage NoValidSrt = flagged_for_safety
    | AtServiceCall | AtTextAccess =>
        (exists m, NoValidSrt = JsError (api_error_prefix ++ m) /\
           In (errorMessage NoValidSrt)
              [format_not_supported; file_too_large; could_not_process;
               flagged_for_safety; service_problem])
        \/ (NoValidSrt = JsError unknown_error_message /\
            errorMessage NoValidSrt = unexpected_error)
    end.
Proof.
  apply (sentence_is_chosen_from_message
           (responds (lit "I cannot process this audio.") STOP)
           [] (lit "audio/webm") original NoValidSrt).
  vm_compute. reflexivity.
Defined.

(** C10: whatever the [try] block throws, the two errors of the
    orchestrator included, is caught by the handler of the same function;
    an [Error] is thrown again with ["Gemini API Error: "] put before its
    message. *)
Theorem every_failure_is_wrapped ai b64 mime lang e :
  generateSrtFromAudio ai b64 mime lang = Rejected e ->
  exists e0,
    try_block (ai (build_request b64 mime lang)) = Rejected e0 /\
    (forall message, e0 = JsError message ->
       e = JsError (api_error_prefix ++ message)) /\
    (e0 = NonError -> e = JsError unknown_error_message) /\
    (failure_site_of (ai (build_request b64 mime lang)) = Some AtSrtCheck ->
       e0 = JsError no_valid_srt_message /\
       e = JsError (lit "Gemini API Error: " ++ no_valid_srt_message)) /\
    (failure_site_of (ai (build_request b64 mime lang)) = Some AtSafetyCheck ->
       e0 = JsError safety_message /\
       e = JsError (lit "Gemini API Error: " ++ safety_message)).
Proof.
  intros H. apply generate_rejected in H. destruct H as (e0 & Ht & ->).
  exists e0. split; [exact Ht|].
  apply try_block_site in Ht.
  split; [intros message ->; reflexivity|].
  split; [intros ->; reflexivity|].
  split; intros Hs; rewrite Hs in Ht; subst e0; split; reflexivity.
Qed.

Lemma every_failure_is_wrapped_witness :
  exists e0,
    try_block (throws (JsError (lit "fetch failed"))
                 (build_request [] (lit "audio/webm") original)) = Rejected e0 /\
    (forall message, e0 = JsError message ->
       JsError (lit "Gemini API Error: fetch failed")
       = JsError (api_error_prefix ++ message)) /\
    (e0 = NonError ->
       JsError (lit "Gemini API Error: fetch failed") = JsError unknown_error_message) /\
    (failure_site_of (throws (JsError (lit "fetch failed"))
                        (build_request [] (lit "audio/webm") original))
       = Some AtSrtCheck ->
       e0 = JsError no_valid_srt_message /\
       JsError (lit "Gemini API Error: fetch failed")
       = JsError (lit "Gemini API Error: " ++ no_valid_srt_message)) /\
    (failure_site_of (throws (JsError (lit "fetch failed"))
                        (build_request [] (lit "audio/webm") original))
       = Some AtSafetyCheck ->
       e0 = JsError safety_message /\
       JsError (lit "Gemini API Error: fetch failed")
       = JsError (lit "Gemini API Error: " ++ safety_message)).
Proof.
  apply (every_failure_is_wrapped (throws (JsError (lit "fetch failed")))
           [] (lit "audio/webm") original
           (JsError (lit "Gemini API Error: fetch failed"))).
  vm_compute. reflexivity.
Defined.

(** ** The ingestion adapter *)

Lemma split_no_sep sep s rest :
  ~ In sep s -> split sep (s ++ sep :: rest) = s :: split sep rest.
Proof.
  induction s as [|c s IH]; intros Hn.
  - simpl. rewrite N.eqb_refl. reflexivity.
  - simpl. destruct (c =? sep) eqn:E.
    + apply N.eqb_eq in E. subst. exfalso. apply Hn. left. reflexivity.
    + rewrite IH; auto. intros Hin. apply Hn. right. exact Hin.
Qed.

(** C9: for a file of zero bytes whose data URL was read to the end, the
    part after the comma is empty and [fileToBase64] rejects with
    ["Failed to read file as base64."]. *)
Theorem empty_file_is_read_failure file :
  bytes file = [] ->
  ~ In 44 (type file) ->
  dataURL file = lit "data:" ++ type file ++ lit ";base64," /\
  nth_error (split 44 (dataURL file)) 1 = Some [] /\
  fileToBase64 (OnLoad (dataURL file))
    = Rejected (JsError (lit "Failed to read file as base64.")).
Proof.
  intros Hb Ht.
  assert (E : dataURL file = (lit "data:" ++ type file ++ lit ";base64") ++ [44]).
  { unfold dataURL. rewrite Hb. simpl base64. rewrite app_nil_r.
    rewrite <- !app_assoc. reflexivity. }
  assert (Hs : split 44 (dataURL file)
               = [lit "data:" ++ type file ++ lit ";base64"; []]).
  { rewrite E. rewrite split_no_sep; [reflexivity|].
    rewrite !in_app_iff. intros [H|[H|H]]; auto.
    - simpl in H. repeat destruct H as [H|H]; try discriminate; auto.
    - simpl in H. repeat destruct H as [H|H]; try discriminate; auto. }
  split; [|split].
  - unfold dataURL. rewrite Hb. simpl base64. rewrite app_nil_r. reflexivity.
  - rewrite Hs. reflexivity.
  - unfold fileToBase64. rewrite Hs. reflexivity.
Qed.

Lemma empty_file_is_read_failure_witness :
  dataURL (MkFile [] (lit "audio/webm") (lit "recording-0.webm"))
    = lit "data:" ++ type (MkFile [] (lit "audio/webm") (lit "recording-0.webm"))
      ++ lit ";base64," /\
  nth_error
    (split 44 (dataURL (MkFile [] (lit "audio/webm") (lit "recording-0.webm")))) 1
    = Some [] /\
  fileToBase64
    (OnLoad (dataURL (MkFile [] (lit "audio/webm") (lit "recording-0.webm"))))
    = Rejected (JsError (lit "Failed to read file as base64.")).
Proof.
  apply (empty_file_is_read_failure
           (MkFile [] (lit "audio/webm") (lit "recording-0.webm"))).
  - reflexivity.
  - simpl. intros H. repeat destruct H as [H|H]; try discriminate; auto.
Defined.

(** C8: when the metadata of the audio cannot be loaded the probe rejects,
    the handler stores the file with duration 0 and no error message, no
    hint is shown for that duration, and a later attempt reads the duration
    nowhere: it runs the same whatever the stored duration is. *)
Theorem duration_probe_fails_gracefully env f st message :
  media env f = MediaError message ->
  (exists e, getAudioDuration (media env f) = Rejected e) /\
  audioDuration (handleAudioFileChange env (Some f) st) = zero /\
  audioFile (handleAudioFileChange env (Some f) st) = Some f /\
  error (handleAudioFileChange env (Some f) st) = [] /\
  long_audio_hint (audioDuration (handleAudioFileChange env (Some f) st)) = false /\
  (forall lang d rendered st0,
     processAudio env lang (setAudioDuration d rendered) (setAudioDuration d st0)
     = setAudioDuration d (processAudio env lang rendered st0)).
Proof.
  intros Hm. unfold handleAudioFileChange. rewrite Hm. simpl.
  split; [eauto|]. repeat split.
  intros lang d rendered st0. unfold processAudio.
  destruct rendered as [md af ad sc il er tl], st0 as [md0 af0 ad0 sc0 il0 er0 tl0].
  simpl. destruct af as [f'|]; [|reflexivity].
  destruct (fileToBase64 (reader env f')) as [b|e0].
  - destruct (generateSrtFromAudio (ai env) b (type f') lang) as [out|e1];
      [reflexivity|]. destruct sc; reflexivity.
  - destruct sc; reflexivity.
Qed.

Lemma duration_probe_fails_gracefully_witness :
  let env := MkEnv (fun f => OnLoad (dataURL f))
                   (fun _ => MediaError (lit "undefined"))
                   (responds (lit "1\n00:00:01,000 --> 00:00:02,000\nHi") STOP) in
  let f := MkFile [82; 73; 70; 70] (lit "audio/wav") (lit "clip.wav") in
  let st := MkState upload None (Num 75) (lit "old") false (lit "old error") english in
  (exists e, getAudioDuration (media env f) = Rejected e) /\
  audioDuration (handleAudioFileChange env (Some f) st) = zero /\
  audioFile (handleAudioFileChange env (Some f) st) = Some f /\
  error (handleAudioFileChange env (Some f) st) = [] /\
  long_audio_hint (audioDuration (handleAudioFileChange env (Some f) st)) = false /\
  (forall lang d rendered st0,
     processAudio env lang (setAudioDuration d rendered) (setAudioDuration d st0)
     = setAudioDuration d (processAudio env lang rendered st0)).
Proof.
  intros env f st.
  apply (duration_probe_fails_gracefully env f st (lit "undefined")).
  reflexivity.
Defined.

(** ** [formatTime] *)

Lemma uint_codes_digits d : forallb is_digit (uint_codes d) = true.
Proof. induction d; simpl; auto. Qed.

Lemma parse_step_pos d : forall acc,
  fold_left (fun a c => a * 10 + (c - 48)) (uint_codes d) (Npos acc)
  = Npos (Pos.of_uint_acc d acc).
Proof.
  induction d; intros acc; cbn [uint_codes fold_left Pos.of_uint_acc];
    try reflexivity; rewrite <- IHd; f_equal; lia.
Qed.

Lemma parse_codes d : parseInt (uint_codes d) = Pos.of_uint d.
Proof.
  unfold parseInt. induction d; cbn [uint_codes fold_left Pos.of_uint];
    try reflexivity; try exact IHd;
    rewrite <- parse_step_pos; f_equal.
Qed.

Lemma parseInt_toString n : parseInt (toString n) = n.
Proof.
  unfold toString. rewrite parse_codes.
  change (Pos.of_uint (N.to_uint n)) with (N.of_uint (N.to_uint n)).
  apply DecimalN.Unsigned.of_to.
Qed.

Lemma padStart_digits k s :
  forallb is_digit s = true -> forallb is_digit (padStart k 48 s) = true.
Proof.
  intros H. unfold padStart. rewrite forallb_app, H, andb_true_r.
  induction (k - length s)%nat; simpl; auto.
Qed.

Lemma parseInt_padStart k s : parseInt (padStart k 48 s) = parseInt s.
Proof.
  unfold padStart, parseInt. rewrite fold_left_app.
  induction (k - length s)%nat; simpl; auto.
Qed.

Lemma digits_no_colon s : forallb is_digit s = true -> ~ In 58 s.
Proof.
  intros H Hin. rewrite forallb_forall in H. apply H in Hin. discriminate.
Qed.

Lemma split_none sep s : ~ In sep s -> split sep s = [s].
Proof.
  induction s as [|c s IH]; intros Hn; simpl; auto.
  destruct (c =? sep) eqn:E.
  - apply N.eqb_eq in E. subst. exfalso. apply Hn. left. reflexivity.
  - rewrite IH; auto. intros Hin. apply Hn. right. exact Hin.
Qed.

Lemma pad_two_digits k :
  k < 100 -> two_digits (padStart 2 48 (toString k)) = true.
Proof.
  intros Hk.
  assert (Hall : forallb (fun n => two_digits (padStart 2 48 (toString (N.of_nat n))))
                   (seq 0 100) = true) by (vm_compute; reflexivity).
  rewrite forallb_forall in Hall.
  specialize (Hall (N.to_nat k)). rewrite N2Nat.id in Hall.
  apply Hall. apply in_seq. lia.
Qed.

(** X1: below one hundred minutes the recording time is shown as two
    digits, a colon and two digits. *)
Theorem formatTime_is_mm_ss seconds :
  seconds < 6000 ->
  exists a b c d,
    formatTime seconds = [a; b; 58; c; d] /\
    is_digit a = true /\ is_digit b = true /\
    is_digit c = true /\ is_digit d = true.
Proof.
  intros H. unfold formatTime.
  assert (Hm : seconds / 60 < 100) by (apply N.Div0.div_lt_upper_bound; lia).
  assert (Hs : seconds mod 60 < 100)
    by (pose proof (N.mod_lt seconds 60); lia).
  apply pad_two_digits in Hm, Hs.
  destruct (padStart 2 48 (toString (seconds / 60))) as [|a [|b [|? ?]]];
    try discriminate.
  destruct (padStart 2 48 (toString (seconds mod 60))) as [|c [|d [|? ?]]];
    try discriminate.
  simpl in Hm, Hs. apply andb_true_iff in Hm, Hs.
  exists a, b, c, d. tauto.
Qed.

Lemma formatTime_is_mm_ss_witness :
  exists a b c d,
    formatTime 754 = [a; b; 58; c; d] /\
    is_digit a = true /\ is_digit b = true /\
    is_digit c = true /\ is_digit d = true.
Proof. apply (formatTime_is_mm_ss 754). reflexivity. Defined.

(** X2: the shown time can be read back: minutes times sixty plus seconds
    is the elapsed time, so two different times are never shown alike. *)
Theorem formatTime_reads_back seconds :
  seconds < 2 ^ 53 ->
  parseTime (formatTime seconds) = Some seconds /\
  forall other, other < 2 ^ 53 ->
    formatTime other = formatTime seconds -> other = seconds.
Proof.
  assert (Hrt : forall n, parseTime (formatTime n) = Some n).
  { intros n. unfold parseTime, formatTime. cbn [app].
    rewrite split_no_sep
      by (apply digits_no_colon, padStart_digits, uint_codes_digits).
    rewrite split_none
      by (apply digits_no_colon, padStart_digits, uint_codes_digits).
    rewrite !parseInt_padStart, !parseInt_toString. f_equal.
    rewrite N.mul_comm. symmetry. apply N.Div0.div_mod. }
  intros _. split; [apply Hrt|].
  intros other _ E. apply (f_equal parseTime) in E. rewrite !Hrt in E.
  congruence.
Qed.

Lemma formatTime_reads_back_witness :
  parseTime (formatTime 7265) = Some 7265 /\
  forall other, other < 2 ^ 53 ->
    formatTime other = formatTime 7265 -> other = 7265.
Proof. apply (formatTime_reads_back 7265). reflexivity. Defined.

(** ** The recorder's chunks *)

Lemma fold_ondataavailable events : forall chunks,
  concat (fold_left ondataavailable events chunks)
  = concat chunks ++ concat events.
Proof.
  induction events as [|e events IH]; intros chunks; simpl.
  - rewrite app_nil_r. reflexivity.
  - rewrite IH. destruct e as [|x e]; simpl; [reflexivity|].
    rewrite concat_app. simpl. rewrite app_nil_r, <- app_assoc. reflexivity.
Qed.

Lemma fold_ondataavailable_nonempty events : forall chunks,
  Forall (fun c => c <> []) chunks ->
  Forall (fun c => c <> []) (fold_left ondataavailable events chunks).
Proof.
  induction events as [|e events IH]; intros chunks H; simpl; auto.
  apply IH. destruct e as [|x e]; simpl; auto.
  apply Forall_app. split; auto. constructor; [discriminate|constructor].
Qed.

(** X3: skipping the empty chunks loses nothing: the recorded file holds the
    bytes of all data events in their order, under the type [audio/webm];
    and no stored chunk is empty. *)
Theorem recording_keeps_all_bytes events now :
  bytes (recording events now) = concat events /\
  type (recording events now) = lit "audio/webm" /\
  Forall (fun c => c <> []) (fold_left ondataavailable events []).
Proof.
  unfold recording, onstop. simpl. split; [|split; auto].
  - rewrite fold_ondataavailable. reflexivity.
  - apply fold_ondataavailable_nonempty. constructor.
Qed.

(** ** Pieces of a string *)

Lemma substring_of_refl s : substring_of s s.
Proof. exists [], []. rewrite app_nil_r. reflexivity. Qed.

Lemma substring_of_trans u v s :
  substring_of u v -> substring_of v s -> substring_of u s.
Proof.
  intros (a & b & ->) (a' & b' & ->). exists (a' ++ a), (b ++ b').
  rewrite <- !app_assoc. reflexivity.
Qed.

Lemma substring_of_skipn i s : substring_of (skipn i s) s.
Proof.
  exists (firstn i s), []. rewrite app_nil_r, firstn_skipn. reflexivity.
Qed.

Lemma substring_of_trim s : substring_of (trim s) s.
Proof.
  unfold trim. destruct (trimStart_split s) as (w & E & _).
  destruct (trimEnd_split (trimStart s)) as (w' & E' & _).
  exists w, w'. rewrite <- E'. exact E.
Qed.

Lemma startsWith_prefix p : forall s,
  startsWith p s = true -> exists b, s = p ++ b.
Proof.
  induction p as [|a p IH]; intros s H.
  - exists s. reflexivity.
  - destruct s as [|x s]; [discriminate|]. simpl in H.
    apply andb_true_iff in H. destruct H as [E H].
    apply N.eqb_eq in E. subst x.
    destruct (IH s H) as (b & ->). exists b. reflexivity.
Qed.

Lemma includes_substring p : forall s,
  includes p s = true -> substring_of p s.
Proof.
  induction s as [|x s IH]; intros H; simpl in H.
  - rewrite orb_false_r in H. apply startsWith_prefix in H.
    destruct H as (b & ->). exists [], b. reflexivity.
  - apply orb_true_iff in H. destruct H as [H|H].
    + apply startsWith_prefix in H. destruct H as (b & ->).
      exists [], b. reflexivity.
    + destruct (IH H) as (a & b & ->). exists (x :: a), b. reflexivity.
Qed.

Lemma includes_iff p s : includes p s = true <-> substring_of p s.
Proof.
  split; [apply includes_substring|].
  intros (a & b & ->). apply includes_app.
Qed.

Lemma not_includes_substring p u s :
  includes p s = false -> substring_of u s -> includes p u = false.
Proof.
  intros H Hu. destruct (includes p u) eqn:E; auto.
  apply includes_iff in E.
  assert (Hs : substring_of p s) by (eapply substring_of_trans; eauto).
  apply includes_iff in Hs. congruence.
Qed.

(** ** Cleaning a text *)

(** What the markdown pattern matches starts with a fence. *)
Lemma markdown_match_has_fence s m :
  js_match markdown_re s = Some m ->
  substring_of fence s /\
  exists g, group1 m = Some g /\ g <> [] /\ substring_of g s.
Proof.
  intros H. apply js_match_some in H.
  destruct H as (_ & (rest & Hsk) & Hl).
  apply lang_markdown in Hl.
  destruct Hl as (t & w & g & Hw & _ & _ & Hg & Hc).
  assert (Hs : substring_of (whole m ++ rest) s)
    by (rewrite <- Hsk; apply substring_of_skipn).
  split.
  - eapply substring_of_trans; [|exact Hs]. rewrite Hw.
    exists [], ((t ++ w ++ [10] ++ g ++ closing) ++ rest).
    simpl. rewrite <- !app_assoc. reflexivity.
  - exists g. repeat split; auto.
    eapply substring_of_trans; [|exact Hs]. rewrite Hw.
    exists (fence ++ t ++ w ++ [10]), (closing ++ rest).
    rewrite <- !app_assoc. reflexivity.
Qed.

Lemma unwrap_substring s : substring_of (unwrap_markdown s) s.
Proof.
  unfold unwrap_markdown.
  destruct (js_match markdown_re s) as [m|] eqn:E; [|apply substring_of_refl].
  destruct (markdown_match_has_fence s m E) as (_ & g & Hg & Hne & Hs).
  rewrite Hg. destruct g as [|x g]; [congruence|].
  eapply substring_of_trans; [apply substring_of_trim | exact Hs].
Qed.

Lemma clean_substring t : substring_of (clean t) t.
Proof.
  unfold clean. eapply substring_of_trans;
    [apply unwrap_substring | apply substring_of_trim].
Qed.

Lemma unwrap_without_fence s :
  includes fence s = false -> unwrap_markdown s = s.
Proof.
  intros H. unfold unwrap_markdown.
  destruct (js_match markdown_re s) as [m|] eqn:E; auto.
  apply markdown_match_has_fence in E. destruct E as (Hf & _).
  apply includes_iff in Hf. congruence.
Qed.

(** X4: a response text without three backquotes in a row is only trimmed
    by the cleaning. *)
Theorem clean_without_fence_is_trim t :
  includes (lit "```") t = false -> clean t = trim t.
Proof.
  intros H. unfold clean. apply unwrap_without_fence.
  eapply not_includes_substring; [exact H | apply substring_of_trim].
Qed.

Lemma clean_without_fence_is_trim_witness :
  clean (lit "  Here you go:\n1\n00:00:01,000 --> 00:00:02,000\nHi\n")
  = trim (lit "  Here you go:\n1\n00:00:01,000 --> 00:00:02,000\nHi\n").
Proof.
  apply (clean_without_fence_is_trim
           (lit "  Here you go:\n1\n00:00:01,000 --> 00:00:02,000\nHi\n")).
  vm_compute. reflexivity.
Defined.

Lemma first_offset_zero P s i :
  first_offset P s i -> begins_with P s -> i = 0%nat.
Proof.
  intros (_ & _ & Hmin) Hb. destruct i; auto.
  exfalso. apply (Hmin 0%nat); [lia | exact Hb].
Qed.

(** X5: a response that already is a document (no white space around it,
    a cue header at its start, no three backquotes in a row) is returned as
    it is, whatever the finish reason. *)
Theorem clean_document_is_returned_unchanged ai b64 mime lang r t :
  ai (build_request b64 mime lang) = ServiceResponds r ->
  text r = Text t ->
  trim t = t ->
  begins_with cue_header t ->
  includes (lit "```") t = false ->
  generateSrtFromAudio ai b64 mime lang = Resolved t.
Proof.
  intros Hai Ht Htrim Hb Hf.
  assert (Hc : clean t = t)
    by (rewrite clean_without_fence_is_trim; auto).
  rewrite (generate_responds _ _ _ _ _ _ Hai Ht), Hc.
  assert (Hs : has_substring cue_header t).
  { apply (begins_with_skipn _ _ 0%nat). exact Hb. }
  destruct (search_finds_cue_header _ Hs) as (m & Em). rewrite Em.
  apply search_first_cue_header in Em.
  rewrite (first_offset_zero _ _ _ Em Hb). reflexivity.
Qed.

Lemma clean_document_is_returned_unchanged_witness :
  generateSrtFromAudio
    (responds (lit "1\n00:00:01,000 --> 00:00:02,000\nHi\n\n2\n00:00:03,000 --> 00:00:04,000\nBye") SAFETY)
    [] (lit "audio/webm") english
  = Resolved (lit "1\n00:00:01,000 --> 00:00:02,000\nHi\n\n2\n00:00:03,000 --> 00:00:04,000\nBye").
Proof.
  apply (clean_document_is_returned_unchanged _ _ _ _
           (Response (Text (lit "1\n00:00:01,000 --> 00:00:02,000\nHi\n\n2\n00:00:03,000 --> 00:00:04,000\nBye")) SAFETY)).
  - reflexivity.
  - reflexivity.
  - vm_compute. reflexivity.
  - exists (lit "1\n00:00:01,000 --> 00:00:02,000"),
           (lit "\nHi\n\n2\n00:00:03,000 --> 00:00:04,000\nBye").
    split; [reflexivity|].
    exists (lit "1"), [], (lit "00:00:01,000"), (lit "00:00:02,000").
    repeat split. discriminate.
  - vm_compute. reflexivity.
Defined.

Lemma generate_resolved_nonempty ai b64 mime lang out :
  generateSrtFromAudio ai b64 mime lang = Resolved out -> out <> [].
Proof.
  intros H. apply generate_resolved in H.
  destruct H as (r & t & m & Hai & Ht & Em & ->).
  apply search_first_cue_header in Em. destruct Em as (_ & Hb & _).
  destruct Hb as (h & post & E & Hh). unfold substring. rewrite E.
  destruct (cue_header_head h Hh) as (x & rest & -> & _). discriminate.
Qed.

(** X6: the document is a contiguous piece of the text the service
    returned: nothing is added to it and nothing inside it is changed. *)
Theorem document_is_piece_of_response ai b64 mime lang out :
  generateSrtFromAudio ai b64 mime lang = Resolved out ->
  exists r t,
    ai (build_request b64 mime lang) = ServiceResponds r /\
    text r = Text t /\
    substring_of out t /\ out <> [].
Proof.
  intros H. pose proof (generate_resolved_nonempty _ _ _ _ _ H) as Hne.
  apply generate_resolved in H.
  destruct H as (r & t & m & Hai & Ht & Em & ->).
  exists r, t. repeat split; auto.
  eapply substring_of_trans; [apply substring_of_skipn | apply clean_substring].
Qed.

Lemma document_is_piece_of_response_witness :
  exists r t,
    responds (lit "Sure! ```srt\n1\n00:00:01,000 --> 00:00:02,000\nHello\n```") STOP
      (build_request [] (lit "audio/webm") original) = ServiceResponds r /\
    text r = Text t /\
    substring_of (lit "1\n00:00:01,000 --> 00:00:02,000\nHello") t /\
    lit "1\n00:00:01,000 --> 00:00:02,000\nHello" <> [].
Proof.
  apply (document_is_piece_of_response
           (responds (lit "Sure! ```srt\n1\n00:00:01,000 --> 00:00:02,000\nHello\n```") STOP)
           [] (lit "audio/webm") original).
  vm_compute. reflexivity.
Defined.

(** ** [fileToBase64] *)

Lemma split_second header payload :
  ~ In 44 header ->
  nth_error (split 44 (header ++ 44 :: payload)) 1
  = Some (hd [] (split 44 payload)).
Proof.
  intros H. rewrite split_no_sep by exact H. simpl.
  destruct payload as [|c p]; simpl; [reflexivity|].
  destruct (c =? 44); [reflexivity|].
  destruct (split 44 p); reflexivity.
Qed.

(** X7: from a reader result with no comma before the separating one and a
    payload that is not empty and holds no comma, [fileToBase64] resolves
    with exactly the payload. *)
Theorem fileToBase64_gives_payload header payload :
  ~ In 44 header -> ~ In 44 payload -> payload <> [] ->
  fileToBase64 (OnLoad (header ++ [44] ++ payload)) = Resolved payload.
Proof.
  intros Hh Hp Hne. unfold fileToBase64. cbn [app].
  rewrite split_second by exact Hh. rewrite split_none by exact Hp.
  simpl. destruct payload; [congruence | reflexivity].
Qed.

Lemma fileToBase64_gives_payload_witness :
  fileToBase64 (OnLoad (lit "data:audio/mpeg;base64" ++ [44] ++ lit "SUQzBAA="))
  = Resolved (lit "SUQzBAA=").
Proof.
  apply (fileToBase64_gives_payload (lit "data:audio/mpeg;base64") (lit "SUQzBAA=")).
  - simpl. intros H. repeat destruct H as [H|H]; try discriminate; auto.
  - simpl. intros H. repeat destruct H as [H|H]; try discriminate; auto.
  - discriminate.
Defined.

Lemma base64_digit_not_comma n : base64_digit n <> 44.
Proof.
  unfold base64_digit.
  destruct (n <? 26) eqn:E1; [lia|].
  destruct (n <? 52) eqn:E2; [lia|].
  destruct (n <? 62) eqn:E3; [apply N.ltb_ge in E2; lia|].
  destruct (n =? 62); lia.
Qed.

Lemma base64_no_comma : forall k bs,
  (length bs <= k)%nat -> ~ In 44 (base64 bs).
Proof.
  induction k as [|k IH]; intros bs Hk.
  - destruct bs; [simpl; auto | simpl in Hk; lia].
  - destruct bs as [|a [|b [|c t]]]; cbn [base64].
    + simpl. auto.
    + simpl. intros [H|[H|[H|[H|H]]]]; try discriminate; auto;
        revert H; apply base64_digit_not_comma.
    + simpl. intros [H|[H|[H|[H|H]]]]; try discriminate; auto;
        revert H; apply base64_digit_not_comma.
    + intros [H|[H|[H|[H|H]]]];
        try (revert H; apply base64_digit_not_comma).
      revert H. apply IH. simpl in Hk. lia.
Qed.

Lemma base64_nonempty bs : bs <> [] -> base64 bs <> [].
Proof. destruct bs as [|a [|b [|c t]]]; simpl; congruence. Qed.

Lemma no_comma_in_data_prefix ty :
  ~ In 44 ty -> ~ In 44 (lit "data:" ++ ty ++ lit ";base64").
Proof.
  intros Ht. rewrite !in_app_iff. intros [H|[H|H]]; auto;
    simpl in H; repeat destruct H as [H|H]; try discriminate; auto.
Qed.

Lemma dataURL_parts file :
  dataURL file
  = (lit "data:" ++ type file ++ lit ";base64") ++ [44] ++ base64 (bytes file).
Proof. unfold dataURL. rewrite <- !app_assoc. reflexivity. Qed.

(** X8: for a file that is not empty and whose type holds no comma, read to
    its end, [fileToBase64] resolves with the base64 text of its bytes. *)
Theorem fileToBase64_of_file file :
  bytes file <> [] -> ~ In 44 (type file) ->
  fileToBase64 (OnLoad (dataURL file)) = Resolved (base64 (bytes file)).
Proof.
  intros Hb Ht. rewrite dataURL_parts. unfold fileToBase64. cbn [app].
  rewrite split_second by (apply no_comma_in_data_prefix; exact Ht).
  rewrite split_none by (apply (base64_no_comma (length (bytes file))); lia).
  simpl. pose proof (base64_nonempty _ Hb) as Hne.
  destruct (base64 (bytes file)); [congruence | reflexivity].
Qed.

Lemma fileToBase64_of_file_witness :
  fileToBase64 (OnLoad (dataURL (MkFile [73; 68; 51; 4] (lit "audio/mpeg") (lit "a.mp3"))))
  = Resolved (base64 (bytes (MkFile [73; 68; 51; 4] (lit "audio/mpeg") (lit "a.mp3")))).
Proof.
  apply (fileToBase64_of_file (MkFile [73; 68; 51; 4] (lit "audio/mpeg") (lit "a.mp3"))).
  - discriminate.
  - simpl. intros H. repeat destruct H as [H|H]; try discriminate; auto.
Defined.

(** X9: when the type of the file holds one comma, [fileToBase64] resolves
    with the rest of the type and [";base64"], whatever the bytes are: the
    payload is not what reaches the caller. *)
Theorem fileToBase64_with_comma_in_type file a b :
  type file = a ++ [44] ++ b -> ~ In 44 a -> ~ In 44 b ->
  fileToBase64 (OnLoad (dataURL file)) = Resolved (b ++ lit ";base64").
Proof.
  intros Ht Ha Hb. unfold dataURL. rewrite Ht.
  replace (lit "data:" ++ (a ++ [44] ++ b) ++ lit ";base64," ++ base64 (bytes file))
    with ((lit "data:" ++ a) ++ 44 :: ((b ++ lit ";base64") ++ 44 :: base64 (bytes file)))
    by (rewrite <- !app_assoc; reflexivity).
  unfold fileToBase64. rewrite split_second.
  2:{ rewrite in_app_iff. intros [H|H]; auto.
      simpl in H. repeat destruct H as [H|H]; try discriminate; auto. }
  rewrite split_no_sep.
  2:{ rewrite in_app_iff. intros [H|H]; auto.
      simpl in H. repeat destruct H as [H|H]; try discriminate; auto. }
  simpl hd. destruct b; reflexivity.
Qed.

Lemma fileToBase64_with_comma_in_type_witness :
  fileToBase64
    (OnLoad (dataURL (MkFile [73; 68; 51] (lit "audio/x,y") (lit "a.bin"))))
  = Resolved (lit "y" ++ lit ";base64").
Proof.
  apply (fileToBase64_with_comma_in_type
           (MkFile [73; 68; 51] (lit "audio/x,y") (lit "a.bin"))
           (lit "audio/x") (lit "y")).
  - reflexivity.
  - simpl. intros H. repeat destruct H as [H|H]; try discriminate; auto.
  - simpl. intros H. repeat destruct H as [H|H]; try discriminate; auto.
Defined.

Lemma fileToBase64_empty file :
  bytes file = [] -> ~ In 44 (type file) ->
  fileToBase64 (OnLoad (dataURL file)) = Rejected (JsError read_failure_message).
Proof.
  intros Hb Ht. rewrite dataURL_parts, Hb. unfold fileToBase64. cbn [app].
  rewrite split_second by (apply no_comma_in_data_prefix; exact Ht).
  reflexivity.
Qed.

(** ** The sentences and the state after an attempt *)

Lemma errorMessage_in_sentences e : In (errorMessage e) sentences.
Proof.
  unfold sentences. destruct e as [m|]; [|simpl; auto 10].
  unfold errorMessage.
  repeat match goal with
  | |- context [if ?b then _ else _] => destruct b
  end; simpl; auto 10.
Qed.

Lemma sentences_nonempty s : In s sentences -> s <> [].
Proof.
  unfold sentences. simpl.
  intros [<-|[<-|[<-|[<-|[<-|[<-|[]]]]]]]; discriminate.
Qed.

(** X10: whatever was thrown, the sentence shown is one of six fixed
    sentences and is not empty; the text of the error itself is never
    shown. *)
Theorem errorMessage_is_a_fixed_sentence e :
  In (errorMessage e) sentences /\ errorMessage e <> [].
Proof.
  split; [apply errorMessage_in_sentences|].
  apply sentences_nonempty, errorMessage_in_sentences.
Qed.

(** What [processAudio] does with a file, by the outcome of the attempt. *)
Lemma processAudio_with_file env lang rendered st f :
  audioFile rendered = Some f ->
  (exists out,
     out <> [] /\
     processAudio env lang rendered st
     = MkState (mode st) (audioFile st) (audioDuration st) out false [] lang)
  \/
  (exists e,
     (fileToBase64 (reader env f) = Rejected e \/
      exists b, fileToBase64 (reader env f) = Resolved b /\
                generateSrtFromAudio (ai env) b (type f) lang = Rejected e) /\
     processAudio env lang rendered st
     = MkState (mode st) (audioFile st) (audioDuration st) [] false
               (errorMessage e)
               (match srtContent rendered with
                | _ :: _ => targetLanguage rendered
                | [] => targetLanguage st
                end)).
Proof.
  intros Hf. unfold processAudio. rewrite Hf.
  destruct st as [md af ad sc il er tl].
  destruct (fileToBase64 (reader env f)) as [b|e] eqn:Eb.
  - destruct (generateSrtFromAudio (ai env) b (type f) lang) as [out|e] eqn:Eg.
    + left. exists out. split; [|reflexivity].
      eapply generate_resolved_nonempty; eauto.
    + right. exists e. split; [right; eauto|].
      destruct (srtContent rendered); reflexivity.
  - right. exists e. split; [left; reflexivity|].
    destruct (srtContent rendered); reflexivity.
Qed.

(** X11: after an attempt on a file the loader is off, the file, its
    duration and the input mode are as before, and exactly one of two things
    holds: subtitles are shown in the language asked for, with no error; or
    no subtitles are left and an error sentence is shown on the input
    screen. *)
Theorem attempt_ends_with_subtitles_or_error env lang rendered st f :
  audioFile rendered = Some f ->
  isLoading (processAudio env lang rendered st) = false /\
  audioFile (processAudio env lang rendered st) = audioFile st /\
  audioDuration (processAudio env lang rendered st) = audioDuration st /\
  mode (processAudio env lang rendered st) = mode st /\
  ((exists out,
      out <> [] /\
      srtContent (processAudio env lang rendered st) = out /\
      error (processAudio env lang rendered st) = [] /\
      render (processAudio env lang rendered st) = SrtDisplayScreen out lang)
   \/
   (srtContent (processAudio env lang rendered st) = [] /\
    error (processAudio env lang rendered st) <> [] /\
    render (processAudio env lang rendered st)
    = InputScreen (mode st) (audioFile st)
                  (error (processAudio env lang rendered st)))).
Proof.
  intros Hf.
  destruct (processAudio_with_file env lang rendered st f Hf)
    as [(out & Hne & ->)|(e & _ & ->)]; cbn.
  - repeat split. left. exists out. repeat split; auto.
    destruct out; [congruence | reflexivity].
  - repeat split. right. repeat split.
    apply sentences_nonempty, errorMessage_in_sentences.
Qed.

Lemma attempt_ends_with_subtitles_or_error_witness :
  isLoading (processAudio (browser (responds one_cue STOP)) english
               (chosen mp3) (chosen mp3)) = false /\
  audioFile (processAudio (browser (responds one_cue STOP)) english
               (chosen mp3) (chosen mp3)) = audioFile (chosen mp3) /\
  audioDuration (processAudio (browser (responds one_cue STOP)) english
                   (chosen mp3) (chosen mp3)) = audioDuration (chosen mp3) /\
  mode (processAudio (browser (responds one_cue STOP)) english
          (chosen mp3) (chosen mp3)) = mode (chosen mp3) /\
  ((exists out,
      out <> [] /\
      srtContent (processAudio (browser (responds one_cue STOP)) english
                    (chosen mp3) (chosen mp3)) = out /\
      error (processAudio (browser (responds one_cue STOP)) english
               (chosen mp3) (chosen mp3)) = [] /\
      render (processAudio (browser (responds one_cue STOP)) english
                (chosen mp3) (chosen mp3)) = SrtDisplayScreen out english)
   \/
   (srtContent (processAudio (browser (responds one_cue STOP)) english
                  (chosen mp3) (chosen mp3)) = [] /\
    error (processAudio (browser (responds one_cue STOP)) english
             (chosen mp3) (chosen mp3)) <> [] /\
    render (processAudio (browser (responds one_cue STOP)) english
              (chosen mp3) (chosen mp3))
    = InputScreen (mode (chosen mp3)) (audioFile (chosen mp3))
                  (error (processAudio (browser (responds one_cue STOP)) english
                            (chosen mp3) (chosen mp3))))).
Proof.
  apply (attempt_ends_with_subtitles_or_error
           (browser (responds one_cue STOP)) english (chosen mp3) (chosen mp3) mp3).
  reflexivity.
Defined.

(** X12: when the file cannot be turned into base64 the remote service
    plays no part: the attempt ends the same with any service, with no
    subtitles and the sentence chosen for the read failure. *)
Theorem read_failure_never_reaches_service env lang rendered st f e :
  audioFile rendered = Some f ->
  fileToBase64 (reader env f) = Rejected e ->
  (forall ai', processAudio (with_ai ai' env) lang rendered st
               = processAudio env lang rendered st) /\
  srtContent (processAudio env lang rendered st) = [] /\
  error (processAudio env lang rendered st) = errorMessage e.
Proof.
  intros Hf He. unfold processAudio, with_ai. rewrite Hf. cbn [reader ai].
  rewrite He. destruct st as [md af ad sc il er tl].
  split; [reflexivity|]. destruct (srtContent rendered); split; reflexivity.
Qed.

Lemma read_failure_never_reaches_service_witness :
  (forall ai', processAudio (with_ai ai' broken_reader) original
                 (chosen mp3) (chosen mp3)
               = processAudio broken_reader original (chosen mp3) (chosen mp3)) /\
  srtContent (processAudio broken_reader original (chosen mp3) (chosen mp3)) = [] /\
  error (processAudio broken_reader original (chosen mp3) (chosen mp3))
  = errorMessage NonError.
Proof.
  apply (read_failure_never_reaches_service
           broken_reader original (chosen mp3) (chosen mp3) mp3 NonError).
  - reflexivity.
  - reflexivity.
Defined.

Lemma concat_all_empty (events : list (list N)) :
  Forall (fun d => d = []) events -> concat events = [].
Proof. induction 1; simpl; auto. subst. auto. Qed.

(** X13: a recording in which no data arrived gives a file of zero bytes,
    and generating from it ends, with any service, in the default sentence
    and no subtitles: the service is not asked. *)
Theorem empty_recording_ends_in_default_sentence env lang rendered st events now :
  Forall (fun d => d = []) events ->
  reads_to_completion env ->
  audioFile rendered = Some (recording events now) ->
  bytes (recording events now) = [] /\
  error (processAudio env lang rendered st) = unexpected_error /\
  srtContent (processAudio env lang rendered st) = [] /\
  (forall ai', processAudio (with_ai ai' env) lang rendered st
               = processAudio env lang rendered st).
Proof.
  intros He Hr Hf.
  assert (Hb : bytes (recording events now) = []).
  { unfold recording, onstop. simpl. rewrite fold_ondataavailable.
    simpl. apply concat_all_empty. exact He. }
  assert (Hrej : fileToBase64 (reader env (recording events now))
                 = Rejected (JsError read_failure_message)).
  { rewrite Hr. apply fileToBase64_empty; [exact Hb|].
    simpl. intros H. repeat destruct H as [H|H]; try discriminate; auto. }
  split; [exact Hb|].
  unfold processAudio, with_ai. rewrite Hf. cbn [reader ai]. rewrite Hrej.
  destruct st as [md af ad sc il er tl].
  destruct (srtContent rendered); repeat split; reflexivity.
Qed.

Lemma empty_recording_ends_in_default_sentence_witness :
  bytes (recording [[]; []] 1700000000000) = [] /\
  error (processAudio (browser (responds one_cue STOP)) original
           (chosen (recording [[]; []] 1700000000000))
           (chosen (recording [[]; []] 1700000000000)))
  = unexpected_error /\
  srtContent (processAudio (browser (responds one_cue STOP)) original
                (chosen (recording [[]; []] 1700000000000))
                (chosen (recording [[]; []] 1700000000000)))
  = [] /\
  (forall ai',
     processAudio (with_ai ai' (browser (responds one_cue STOP))) original
       (chosen (recording [[]; []] 1700000000000))
       (chosen (recording [[]; []] 1700000000000))
     = processAudio (browser (responds one_cue STOP)) original
         (chosen (recording [[]; []] 1700000000000))
         (chosen (recording [[]; []] 1700000000000))).
Proof.
  apply (empty_recording_ends_in_default_sentence
           (browser (responds one_cue STOP)) original
           (chosen (recording [[]; []] 1700000000000))
           (chosen (recording [[]; []] 1700000000000))
           [[]; []] 1700000000000).
  - repeat constructor.
  - intros f. reflexivity.
  - reflexivity.
Defined.

(** X14: switching the language of shown subtitles.  Asking for the
    language already shown changes nothing.  Otherwise, when the new
    attempt succeeds the new subtitles are shown in the new language; when
    it fails no subtitles are left, an error sentence is set, and the
    language goes back to the one the handler was created with if that
    state had subtitles. *)
Theorem language_switch env newLanguage rendered st f :
  audioFile rendered = Some f ->
  (newLanguage = targetLanguage rendered ->
   handleLanguageChange env newLanguage rendered st = st) /\
  (newLanguage <> targetLanguage rendered ->
   (srtContent (handleLanguageChange env newLanguage rendered st) <> [] /\
    error (handleLanguageChange env newLanguage rendered st) = [] /\
    targetLanguage (handleLanguageChange env newLanguage rendered st) = newLanguage)
   \/
   (srtContent (handleLanguageChange env newLanguage rendered st) = [] /\
    error (handleLanguageChange env newLanguage rendered st) <> [] /\
    (srtContent rendered <> [] ->
     targetLanguage (handleLanguageChange env newLanguage rendered st)
     = targetLanguage rendered) /\
    (srtContent rendered = [] ->
     targetLanguage (handleLanguageChange env newLanguage rendered st)
     = newLanguage))).
Proof.
  intros Hf. unfold handleLanguageChange. split.
  - intros ->. destruct (targetLanguage rendered); reflexivity.
  - intros Hne.
    assert (E : language_eqb newLanguage (targetLanguage rendered) = false)
      by (destruct newLanguage, (targetLanguage rendered); simpl; congruence).
    rewrite E.
    destruct (processAudio_with_file env newLanguage rendered
                (setTargetLanguage newLanguage st) f Hf)
      as [(out & Hout & ->)|(e & _ & ->)]; cbn.
    + left. repeat split; auto.
    + right. repeat split.
      * apply sentences_nonempty, errorMessage_in_sentences.
      * destruct (srtContent rendered); [congruence | reflexivity].
      * intros ->. reflexivity.
Qed.

Lemma language_switch_witness :
  (original = targetLanguage (showing mp3 one_cue english) ->
   handleLanguageChange (browser (throws (JsError (lit "fetch failed")))) original
        (showing mp3 one_cue english) (showing mp3 one_cue english)
   = showing mp3 one_cue english) /\
  (original <> targetLanguage (showing mp3 one_cue english) ->
   (srtContent (handleLanguageChange (browser (throws (JsError (lit "fetch failed")))) original
        (showing mp3 one_cue english) (showing mp3 one_cue english)) <> [] /\
    error (handleLanguageChange (browser (throws (JsError (lit "fetch failed")))) original
        (showing mp3 one_cue english) (showing mp3 one_cue english)) = [] /\
    targetLanguage (handleLanguageChange (browser (throws (JsError (lit "fetch failed")))) original
        (showing mp3 one_cue english) (showing mp3 one_cue english)) = original)
   \/
   (srtContent (handleLanguageChange (browser (throws (JsError (lit "fetch failed")))) original
        (showing mp3 one_cue english) (showing mp3 one_cue english)) = [] /\
    error (handleLanguageChange (browser (throws (JsError (lit "fetch failed")))) original
        (showing mp3 one_cue english) (showing mp3 one_cue english)) <> [] /\
    (srtContent (showing mp3 one_cue english) <> [] ->
     targetLanguage (handleLanguageChange (browser (throws (JsError (lit "fetch failed")))) original
        (showing mp3 one_cue english) (showing mp3 one_cue english))
     = targetLanguage (showing mp3 one_cue english)) /\
    (srtContent (showing mp3 one_cue english) = [] ->
     targetLanguage (handleLanguageChange (browser (throws (JsError (lit "fetch failed")))) original
        (showing mp3 one_cue english) (showing mp3 one_cue english))
     = original))).
Proof.
  apply (language_switch
           (browser (throws (JsError (lit "fetch failed")))) original
           (showing mp3 one_cue english) (showing mp3 one_cue english) mp3).
  reflexivity.
Defined.

(** ** The loader's message *)

Lemma ticks_index n :
  (0 < n)%nat ->
  ticks n mounted
  = MkLoader (n mod 6) (nth_error messages (n mod 6)).
Proof.
  induction n as [|n IH]; [lia|]. intros _.
  destruct n as [|n].
  - reflexivity.
  - change (ticks (S (S n)) mounted) with (tick (ticks (S n) mounted)).
    rewrite IH by lia. unfold tick. cbn [messageIndex].
    change (length messages) with 6%nat.
    replace ((S n mod 6 + 1) mod 6)%nat with (S (S n) mod 6)%nat; [reflexivity|].
    rewrite Nat.Div0.add_mod_idemp_l. f_equal. lia.
Qed.

(** X15: after the first run of the interval the loader always shows one
    of its six messages (the index never leaves the list), the starting
    message does not come back, and the messages repeat every six runs. *)
Theorem loader_message_rotates n :
  (0 < n)%nat ->
  (exists m,
     message (ticks n mounted) = Some m /\ In m messages /\
     m <> initial_message) /\
  (messageIndex (ticks n mounted) < length messages)%nat /\
  ticks (n + 6) mounted = ticks n mounted.
Proof.
  intros Hn. rewrite !ticks_index by lia. cbn [message messageIndex].
  assert (Hlt : (n mod 6 < 6)%nat) by (apply Nat.mod_upper_bound; lia).
  split; [|split].
  - destruct (nth_error messages (n mod 6)) as [m|] eqn:E.
    + exists m. split; [reflexivity|]. split; [eapply nth_error_In; eauto|].
      apply nth_error_In in E. unfold messages in E. simpl in E.
      intros ->. repeat destruct E as [E|E]; try discriminate; auto.
    + apply nth_error_None in E. change (length messages) with 6%nat in E. lia.
  - exact Hlt.
  - replace ((n + 6) mod 6)%nat with (n mod 6)%nat; [reflexivity|].
    rewrite <- (Nat.Div0.add_mod_idemp_r n 6 6). simpl (6 mod 6)%nat.
    rewrite Nat.add_0_r. reflexivity.
Qed.

Lemma loader_message_rotates_witness :
  (exists m,
     message (ticks 8 mounted) = Some m /\ In m messages /\
     m <> initial_message) /\
  (messageIndex (ticks 8 mounted) < length messages)%nat /\
  ticks (8 + 6) mounted = ticks 8 mounted.
Proof. apply (loader_message_rotates 8). lia. Defined.
